(** * game1_backend: the Express / Mongoose / Socket.io server of [server.js]

    A shallow embedding of the request handlers of [server.js] and the
    properties of the capacity-gated join workflow, the room relay and the
    CORS boundary.

    Conventions of the embedding.
    - A JavaScript [Number] is a double.  A finite double is a whole
      multiple of 2^-1074 and is represented by that multiple, so that
      equality and order are those of [Z]; [+ 1] rounds to 53 significant
      bits, ties to even.  The two infinities are values of their own, and
      [NaN] is kept apart because [Number(players) || 0] tests for it and a
      stored Number is never [NaN].  The sign of zero is not represented.
    - The [:id] of a route is cast to an ObjectId before it is looked up: 24
      hexadecimal digits, compared without regard to case.
    - An awaited Mongoose call either resolves or rejects.  Whether it
      resolves is not decided by [server.js]; each handler run receives an
      [Env] that says so, together with the clock and the ObjectId the driver
      generates for a new document.
    - A handler returns the new state, the HTTP response (for a route) and
      the list of effects it performed, in program order. *)

From Stdlib Require Import ZArith Lia.
From stdpp Require Import gmap strings pretty list fin_maps sorting.

Local Open Scope string_scope.
Local Open Scope Z_scope.

(** ** JavaScript values that reach the handlers *)

Module JS.

(** [scale] times a finite double is a whole number: 2^-1074 is the
    smallest positive double. *)
Definition scale : Z := 2 ^ 1074.

(** [Number.MAX_VALUE], (2^53 - 1) * 2^971, times [scale]. *)
Definition max_double : Z := (2 ^ 53 - 1) * 2 ^ 2045.

(** A Number other than NaN: [fin n] is the double [n / scale]. *)
Inductive double :=
| fin (n : Z)
| pinf
| ninf.

(** The double of an integer (exact for every integer of magnitude at most
    2^53). *)
Definition int (z : Z) : double := fin (z * scale).

(** Rounding of a whole multiple of 2^-1074 to 53 significant bits, to the
    nearest, ties to the even significand. *)
Definition round53 (n : Z) : Z :=
  let a := Z.abs n in
  let k := Z.log2 a - 52 in
  if k <=? 0 then n
  else
    let q := a / 2 ^ k in
    let r := a mod 2 ^ k in
    let half := 2 ^ (k - 1) in
    let q' :=
      if r <? half then q
      else if half <? r then q + 1
      else if Z.even q then q else q + 1 in
    Z.sgn n * (q' * 2 ^ k).

(** The double an exact result is rounded to; beyond [max_double] it is an
    infinity. *)
Definition rounded (n : Z) : double :=
  let r := round53 n in
  if max_double <? r then pinf
  else if r <? - max_double then ninf
  else fin r.

(** [x + 1]. *)
Definition add1 (x : double) : double :=
  match x with
  | fin n => rounded (n + scale)
  | pinf => pinf
  | ninf => ninf
  end.

(** [x >= y]. *)
Definition geb (x y : double) : bool :=
  match x, y with
  | pinf, _ => true
  | _, ninf => true
  | fin a, fin b => b <=? a
  | _, _ => false
  end.

(** [x <= y] and [x < y] as propositions. *)
Definition le (x y : double) : Prop :=
  match x, y with
  | ninf, _ => True
  | _, pinf => True
  | fin a, fin b => a <= b
  | _, _ => False
  end.

Definition lt (x y : double) : Prop :=
  match x, y with
  | pinf, _ => False
  | _, ninf => False
  | fin a, fin b => a < b
  | _, _ => True
  end.

(** A Number: a double or NaN. *)
Inductive jsnum := Val (x : double) | NaN.

(** The Number of an integer. *)
Definition Num (z : Z) : jsnum := Val (int z).

(** A value of a parsed JSON body, or [undefined] for a missing property.
    [JObject repr] is an array or object literal whose [toString()] is
    [repr] (what ToPrimitive yields for values decoded from JSON). *)
Inductive jsval :=
| JUndefined
| JNull
| JBool (b : bool)
| JNumber (n : jsnum)
| JString (s : string)
| JObject (repr : string).

(** ToBoolean. *)
Definition truthy (v : jsval) : bool :=
  match v with
  | JUndefined | JNull => false
  | JBool b => b
  | JNumber (Val (fin n)) => negb (n =? 0)
  | JNumber (Val _) => true
  | JNumber NaN => false
  | JString s => negb (String.eqb s "")
  | JObject _ => true
  end.

Section ToNumber.
(** The StringToNumber grammar of the language (decimal, hexadecimal,
    exponents, surrounding white space, ...) is left to the runtime. *)
Variable StringToNumber : string -> jsnum.

(** [Number(v)]. *)
Definition Number (v : jsval) : jsnum :=
  match v with
  | JUndefined => NaN
  | JNull => Num 0
  | JBool true => Num 1
  | JBool false => Num 0
  | JNumber n => n
  | JString s => StringToNumber s
  | JObject repr => StringToNumber repr
  end.
End ToNumber.

(** [n || 0] on a Number: [NaN] and [0] are falsy. *)
Definition or_zero (n : jsnum) : double :=
  match n with
  | Val (fin z) => if z =? 0 then int 0 else fin z
  | Val x => x
  | NaN => int 0
  end.

(** StringToNumber on the strings made of decimal digits only (the empty
    string converts to 0, a long one to the nearest double); used to run
    the handlers on concrete requests. *)
Definition digit_of (c : Ascii.ascii) : option Z :=
  let n := Z.of_nat (Ascii.nat_of_ascii c) in
  if (48 <=? n) && (n <=? 57) then Some (n - 48) else None.

Fixpoint digits_from (acc : Z) (s : string) : jsnum :=
  match s with
  | EmptyString => Val (rounded (acc * scale))
  | String c s' =>
      match digit_of c with
      | Some d => digits_from (10 * acc + d) s'
      | None => NaN
      end
  end.

Definition digits_to_number (s : string) : jsnum := digits_from 0 s.

End JS.

Arguments JS.scale : simpl never.
Arguments JS.max_double : simpl never.

(** ** Schemas (lines 63-92) *)

Module Game.
(** [gameSchema]; [_id] is added by Mongoose. *)
Record t := mk {
  _id : string;
  title : option string;
  sport : option string;
  time : option string;
  location : option string;
  players : JS.double;
  maxPlayers : JS.double;
  createdAt : Z;
}.

Definition with_players (n : JS.double) (g : t) : t :=
  mk (_id g) (title g) (sport g) (time g) (location g) n (maxPlayers g)
     (createdAt g).
End Game.

Module Message.
(** [messageSchema]; [author] is the nested pair [{ id, name }]. *)
Record author_t := mk_author {
  id : option string;
  name : option string;
}.

Record t := mk {
  _id : string;
  room : string;
  author : author_t;
  text : option string;
  createdAt : Z;
}.
End Message.

(** ** The record store as the handlers see it *)

(** The collections the modelled handlers touch. [messages] is kept in
    insertion order. *)
Record Db := mkDb {
  games : gmap string Game.t;
  messages : list Message.t;
}.

(** What the runtime supplies to one handler run. *)
Record Env := mkEnv {
  now : Z;          (* Date.now() *)
  oid : string;     (* the ObjectId generated for a new document *)
  find_ok : bool;   (* the driver answers the awaited query *)
  save_ok : bool;   (* the awaited save reaches the store *)
}.

(** Outcome of an awaited promise; [Rejected] is what [catch (err)] sees. *)
Inductive Settled (A : Type) :=
| Resolved (a : A)
| Rejected.
Arguments Resolved {A} a.
Arguments Rejected {A}.

(** The cast of a string to an ObjectId, written as the driver prints
    one: 24 hexadecimal digits, in lower case. Any other string does not
    cast. *)
Definition hex_digit (c : Ascii.ascii) : option Ascii.ascii :=
  let n := Ascii.nat_of_ascii c in
  if ((48 <=? n) && (n <=? 57))%nat || ((97 <=? n) && (n <=? 102))%nat
  then Some c
  else if ((65 <=? n) && (n <=? 70))%nat
       then Some (Ascii.ascii_of_nat (n + 32))
       else None.

Fixpoint hex_digits (s : string) : option string :=
  match s with
  | EmptyString => Some EmptyString
  | String c s' =>
      match hex_digit c, hex_digits s' with
      | Some c', Some s'' => Some (String c' s'')
      | _, _ => None
      end
  end.

Definition cast_ObjectId (s : string) : option string :=
  if (String.length s =? 24)%nat then hex_digits s else None.

(** [Game.findById(id)]: rejected when the driver fails or [id] does not
    cast; otherwise the document stored under the ObjectId, if any. *)
Definition Game_findById (e : Env) (id : string) (d : Db)
  : Settled (option Game.t) :=
  if find_ok e then
    match cast_ObjectId id with
    | Some k => Resolved (games d !! k)
    | None => Rejected
    end
  else Rejected.

(** [newGame.save()] for a document built with [new Game(..)]: an insert,
    refused when the [_id] is already taken. *)
Definition Game_insert (e : Env) (g : Game.t) (d : Db) : Settled Db :=
  if save_ok e then
    match games d !! Game._id g with
    | None => Resolved (mkDb (<[Game._id g := g]> (games d)) (messages d))
    | Some _ => Rejected
    end
  else Rejected.

(** [game.save()] for a document obtained from [findById] whose only
    modified path is [players]: the stored document gets that path set. *)
Definition Game_save_players (e : Env) (doc : Game.t) (d : Db) : Settled Db :=
  if save_ok e then
    match games d !! Game._id doc with
    | Some stored =>
        Resolved (mkDb (<[Game._id doc :=
                          Game.with_players (Game.players doc) stored]>
                          (games d))
                       (messages d))
    | None => Rejected
    end
  else Rejected.

(** [newMsg.save()]: an insert at the end of the collection. *)
Definition Message_insert (e : Env) (m : Message.t) (d : Db) : Settled Db :=
  if save_ok e then
    if bool_decide (Message._id m ∈ Message._id <$> messages d) then Rejected
    else Resolved (mkDb (games d) (messages d ++ [m]))
  else Rejected.

(** [sort({ createdAt: 1 })]: ascending, documents with equal keys stay in
    insertion order. *)
Fixpoint insert_createdAt (m : Message.t) (l : list Message.t)
  : list Message.t :=
  match l with
  | [] => [m]
  | h :: t =>
      if Message.createdAt m <=? Message.createdAt h then m :: h :: t
      else h :: insert_createdAt m t
  end.

Fixpoint sort_createdAt (l : list Message.t) : list Message.t :=
  match l with
  | [] => []
  | m :: t => insert_createdAt m (sort_createdAt t)
  end.

(** [Message.find({ room }).sort({ createdAt: 1 }).limit(50)]. *)
Definition Message_find_room (e : Env) (r : string) (d : Db)
  : Settled (list Message.t) :=
  if find_ok e then
    Resolved
      (take 50 (sort_createdAt
                  (filter (λ m, Message.room m = r) (messages d))))
  else Rejected.

(** ** Observable behaviour *)

Inductive ResBody :=
| json_game (g : Game.t)
| json_message (message : string).

Record Response := mkResponse {
  status : Z;
  body : ResBody;
}.

(** [res.json(b)] and [res.status(code).json({ message })]. *)
Definition res_json (b : ResBody) : Response := mkResponse 200 b.
Definition res_status_json (code : Z) (message : string) : Response :=
  mkResponse code (json_message message).

Inductive Payload :=
| PGame (g : Game.t)
| PMessage (m : Message.t)
| PMessages (ms : list Message.t).

Inductive LogLine :=
| joined_room (sid room : string)
| left_room (sid room : string)
| error_loading_messages
| error_saving_message.

Inductive Effect :=
| io_emit (event : string) (p : Payload)
| io_to_emit (room : string) (event : string) (p : Payload)
| socket_emit (sid : string) (event : string) (p : Payload)
| console_log (l : LogLine)
| console_error (l : LogLine).

(** ** CORS boundary (lines 16-34) *)

Definition allowedOrigins : list string :=
  ["http://localhost:5173"; "https://game1-frontend.vercel.app"].

(** What the [origin] function passes to its callback. *)
Inductive CorsVerdict :=
| callback_ok                   (* callback(null, true) *)
| callback_error (msg : string) (* callback(new Error(msg)) *).

(** [corsOptions.origin]; the argument is the request's Origin header,
    [None] when the header is missing. [!origin] holds for a missing header
    and for the empty string. *)
Definition corsOptions_origin (origin : option string) : CorsVerdict :=
  match origin with
  | None => callback_ok
  | Some o =>
      if negb (JS.truthy (JS.JString o)) || bool_decide (o ∈ allowedOrigins)
      then callback_ok
      else callback_error "Not allowed by CORS"
  end.

(** Result of passing a request through [app.use(cors(corsOptions))] and
    then to its route: on a callback error the middleware calls [next(err)],
    the route is skipped and the state is untouched. The second
    [app.use(cors({ origin: allowedOrigins, .. }))] (lines 44-49) only sets
    response headers and stops no request. *)
Inductive Handled :=
| blocked (err : string)
| served (r : Response).

Definition app_handle (origin : option string)
    (route : Db -> Db * Response * list Effect) (d : Db)
  : Db * Handled * list Effect :=
  match corsOptions_origin origin with
  | callback_error err => (d, blocked err, [])
  | callback_ok =>
      let '(d', r, effs) := route d in (d', served r, effs)
  end.

(** ** REST handlers *)

Module ReqBody.
(** [req.body] of [POST /api/games] after [express.json()]. The four text
    fields are strings or missing; [players] and [maxPlayers] are any JSON
    value. *)
Record t := mk {
  title : option string;
  sport : option string;
  time : option string;
  location : option string;
  players : JS.jsval;
  maxPlayers : JS.jsval;
}.

Definition with_maxPlayers (v : JS.jsval) (b : t) : t :=
  mk (title b) (sport b) (time b) (location b) (players b) v.
End ReqBody.

Section Routes.
Variable StringToNumber : string -> JS.jsnum.

(** [new Game({ title, sport, time, location,
                players: Number(players) || 0, maxPlayers: 6 })]
    (lines 114-123); [createdAt] takes its schema default. *)
Definition new_Game (e : Env) (b : ReqBody.t) : Game.t :=
  Game.mk (oid e) (ReqBody.title b) (ReqBody.sport b) (ReqBody.time b)
          (ReqBody.location b)
          (JS.or_zero (JS.Number StringToNumber (ReqBody.players b)))
          (JS.int 6)
          (now e).

(** [app.post("/api/games", ..)] (lines 112-130). *)
Definition create_game (e : Env) (b : ReqBody.t) (d : Db)
  : Db * Response * list Effect :=
  let newGame := new_Game e b in
  match Game_insert e newGame d with
  | Resolved d' => (d', res_json (json_game newGame), [])
  | Rejected => (d, res_status_json 500 "Error creating game", [])
  end.
End Routes.

(** [app.put("/api/games/:id/join", ..)] runs in two turns of the event
    loop, one per [await]. *)

(** Where the handler stands after the first turn. *)
Inductive JoinLoaded :=
| replied (r : Response)   (* an early [return res.status(..)] or the catch *)
| saving (doc : Game.t)    (* [game.save()] has been issued for [doc] *).

(** Lines 135-141: [findById] settles, the two guards, [game.players += 1]
    on the loaded document. *)
Definition join_load (e : Env) (id : string) (d : Db) : JoinLoaded :=
  match Game_findById e id d with
  | Rejected => replied (res_status_json 500 "Error joining game")
  | Resolved None => replied (res_status_json 404 "Game not found")
  | Resolved (Some game) =>
      if JS.geb (Game.players game) (Game.maxPlayers game)
      then replied (res_status_json 400 "Game is full")
      else saving (Game.with_players (JS.add1 (Game.players game)) game)
  end.

(** Lines 142-144: [save] settles, [io.emit("update_game", game)],
    [res.json(game)]. *)
Definition join_save (e : Env) (doc : Game.t) (d : Db)
  : Db * Response * list Effect :=
  match Game_save_players e doc d with
  | Resolved d' =>
      (d', res_json (json_game doc), [io_emit "update_game" (PGame doc)])
  | Rejected => (d, res_status_json 500 "Error joining game", [])
  end.

(** The handler when nothing else runs between its two turns. *)
Definition join_game (e : Env) (id : string) (d : Db)
  : Db * Response * list Effect :=
  match join_load e id d with
  | replied r => (d, r, [])
  | saving doc => join_save e doc d
  end.

(** ** Socket.io handlers (lines 172-207) *)

(** The server: the store, the connected sockets and the rooms of the
    Socket.io adapter (room name to socket ids). *)
Record Server := mkServer {
  db : Db;
  sockets : gset string;
  rooms : gmap string (gset string);
}.

Definition members (r : string) (s : Server) : gset string :=
  default ∅ (rooms s !! r).

(** [socket.join(room)] and [socket.leave(room)]. *)
Definition socket_join (sid r : string) (s : Server) : Server :=
  mkServer (db s) (sockets s) (<[r := {[sid]} ∪ members r s]> (rooms s)).

Definition socket_leave (sid r : string) (s : Server) : Server :=
  mkServer (db s) (sockets s) (<[r := members r s ∖ {[sid]}]> (rooms s)).

(** The sockets an effect is delivered to. *)
Definition recipients (s : Server) (eff : Effect) : gset string :=
  match eff with
  | io_emit _ _ => sockets s
  | io_to_emit r _ _ => members r s
  | socket_emit sid _ _ => {[sid]}
  | console_log _ | console_error _ => ∅
  end.

(** A room name as an event argument: a string, or nothing. [!room] holds
    for a missing argument and for the empty string. *)
Definition room_given (room : option string) : option string :=
  match room with
  | Some r => if JS.truthy (JS.JString r) then Some r else None
  | None => None
  end.

(** [socket.on("join_room", ..)] (lines 175-186) for the socket [sid]. *)
Definition join_room (e : Env) (sid : string) (room : option string)
    (s : Server) : Server * list Effect :=
  match room_given room with
  | None => (s, [])
  | Some r =>
      let s' := socket_join sid r s in
      let logged := console_log (joined_room sid r) in
      match Message_find_room e r (db s') with
      | Resolved msgs =>
          (s', [logged; socket_emit sid "load_messages" (PMessages msgs)])
      | Rejected => (s', [logged; console_error error_loading_messages])
      end
  end.

(** [socket.on("leave_room", ..)] (lines 188-191). *)
Definition leave_room (sid r : string) (s : Server)
  : Server * list Effect :=
  (socket_leave sid r s, [console_log (left_room sid r)]).

Module ChatPayload.
(** The object a client sends with [chat_message]: the paths of
    [messageSchema], each one possibly missing, and [_id], given as the
    ObjectId it casts to (a payload whose [_id] does not cast has its save
    rejected, as under an [Env] with [save_ok = false]). *)
Record t := mk {
  _id : option string;
  room : option string;
  author : Message.author_t;
  text : option string;
  createdAt : option Z;
}.
End ChatPayload.

(** [new Message(msg)] once [msg.room] is known to be [r]: paths present
    in [msg] are copied, missing ones take their defaults. *)
Definition new_Message (e : Env) (r : string) (msg : ChatPayload.t)
  : Message.t :=
  Message.mk (default (oid e) (ChatPayload._id msg))
             r
             (ChatPayload.author msg)
             (ChatPayload.text msg)
             (default (now e) (ChatPayload.createdAt msg)).

(** [socket.on("chat_message", ..)] (lines 193-202); [msg] is [None] when
    the event carries no object. *)
Definition chat_message (e : Env) (msg : option ChatPayload.t) (s : Server)
  : Server * list Effect :=
  match msg with
  | None => (s, [])
  | Some m =>
      match room_given (ChatPayload.room m) with
      | None => (s, [])
      | Some r =>
          let newMsg := new_Message e r m in
          match Message_insert e newMsg (db s) with
          | Resolved d' =>
              (mkServer d' (sockets s) (rooms s),
               [io_to_emit r "chat_message" (PMessage newMsg)])
          | Rejected => (s, [console_error error_saving_message])
          end
      end
  end.

(** ** Interleaved requests

    Node runs one handler turn at a time; a handler gives up control at each
    [await]. A join request therefore takes two turns, and turns of other
    requests may run in between. *)

Inductive Pending :=
| await_find (id : string)   (* [Game.findById(id)] is outstanding *)
| await_save (doc : Game.t)  (* [game.save()] is outstanding for [doc] *).

Record Sys := mkSys {
  store : Db;
  inflight : gmap nat Pending;
  replies : list (nat * Response);
  emitted : list Effect;
}.

Inductive Turn :=
| arrive_join (rid : nat) (id : string)
    (* request [rid] is [PUT /api/games/id/join] *)
| resume (rid : nat) (e : Env)
    (* the promise request [rid] awaits settles *)
| post_game (rid : nat) (e : Env) (b : ReqBody.t)
    (* request [rid] is [POST /api/games]; it has one store operation *).

Section Interleaving.
Variable StringToNumber : string -> JS.jsnum.

Definition turn (y : Sys) (t : Turn) : Sys :=
  match t with
  | arrive_join rid id =>
      match inflight y !! rid with
      | Some _ => y
      | None =>
          mkSys (store y) (<[rid := await_find id]> (inflight y))
                (replies y) (emitted y)
      end
  | resume rid e =>
      match inflight y !! rid with
      | None => y
      | Some (await_find id) =>
          match join_load e id (store y) with
          | replied r =>
              mkSys (store y) (delete rid (inflight y))
                    (replies y ++ [(rid, r)]) (emitted y)
          | saving doc =>
              mkSys (store y) (<[rid := await_save doc]> (inflight y))
                    (replies y) (emitted y)
          end
      | Some (await_save doc) =>
          let '(d', r, effs) := join_save e doc (store y) in
          mkSys d' (delete rid (inflight y))
                (replies y ++ [(rid, r)]) (emitted y ++ effs)
      end
  | post_game rid e b =>
      let '(d', r, effs) := create_game StringToNumber e b (store y) in
      mkSys d' (inflight y) (replies y ++ [(rid, r)]) (emitted y ++ effs)
  end.

Definition run (ts : list Turn) (y : Sys) : Sys := fold_left turn ts y.
End Interleaving.

(** The server with store [d] and no request in progress. *)
Definition boot (d : Db) : Sys := mkSys d ∅ [] [].

(** Requests answered with [res.json(..)]. *)
Definition succeeded (rs : list (nat * Response)) : list nat :=
  fst <$> filter (λ p, status p.2 = 200) rs.

(** One join request after the other, each run to completion. *)
Fixpoint join_all (es : list Env) (id : string) (d : Db)
  : Db * list Response :=
  match es with
  | [] => (d, [])
  | e :: es' =>
      let '(d', r, _) := join_game e id d in
      let '(d'', rs) := join_all es' id d' in
      (d'', r :: rs)
  end.

(** ** Predicates of the statements *)



(** Every stored game is filed under its own [_id]. *)
Definition well_keyed (d : Db) : Prop :=
  ∀ id g, games d !! id = Some g → Game._id g = id.



(** A resolving environment: both awaited store calls go through. *)
Definition store_up (e : Env) : Prop := find_ok e = true ∧ save_ok e = true.

(** An [update_game] broadcast. *)
Definition is_update_game (eff : Effect) : Prop :=
  match eff with
  | io_emit ev _ => ev = "update_game"
  | _ => False
  end.

(** An effect that reaches some socket. *)
Definition is_emit (eff : Effect) : Prop :=
  match eff with
  | io_emit _ _ | io_to_emit _ _ _ | socket_emit _ _ _ => True
  | console_log _ | console_error _ => False
  end.




(** The order of [sort({ createdAt: 1 })]. *)
Definition by_createdAt (a b : Message.t) : Prop :=
  Message.createdAt a <= Message.createdAt b.

(** ** Sample data *)

(** An environment in which every store call resolves. *)
Definition up : Env := mkEnv 1000 "64b0000000000000000000a1" true true.

(** The same with a failing save. *)
Definition save_down : Env := mkEnv 1000 "64b0000000000000000000a1" true false.

Definition g1 : string := "64b000000000000000000001".

(** A five-a-side game with one place left. *)
Definition game5 : Game.t :=
  Game.mk g1 (Some "Sunday kickabout") (Some "football") (Some "18:00")
          (Some "Pitch 2") (JS.int 5) (JS.int 6) 900.

Definition lobby : Db := mkDb {[ g1 := game5 ]} [].

Definition nothing : Db := mkDb ∅ [].

Definition alice : Message.author_t := Message.mk_author (Some "u1") (Some "Alice").

(** Two sockets connected, both in room [r1]. *)
Definition relay : Server :=
  mkServer nothing {[ "sockA"; "sockB" ]} {[ "r1" := {[ "sockA"; "sockB" ]} ]}.

(** A chat payload that brings its own [createdAt]. *)
Definition backdated : ChatPayload.t :=
  ChatPayload.mk None (Some "r1") alice (Some "hi") (Some 5).

(** The round-trip payload of the specification. *)
Definition hi : ChatPayload.t :=
  ChatPayload.mk None (Some "r1") alice (Some "hi") None.

(** The [i]-th message of a busy room, sent at time [i]. *)
Definition note (i : nat) : Message.t :=
  Message.mk (pretty i) "r1" alice (Some "hi") (Z.of_nat i).

(** Room [r1] holds 51 messages, sent at times 1 to 51; socket A is in. *)
Definition busy : Server :=
  mkServer (mkDb ∅ (note <$> seq 1 51)) {[ "sockA"; "sockB" ]}
           {[ "r1" := {[ "sockA" ]} ]}.

(** Two join requests for the last place of [game5]; both lookups are
    answered before either save. *)
Definition race : list Turn :=
  [arrive_join 1 g1; arrive_join 2 g1;
   resume 1 up; resume 2 up;
   resume 1 up; resume 2 up].

(** A create-game request that announces ten players. *)
Definition crowded : ReqBody.t :=
  ReqBody.mk (Some "Sunday kickabout") (Some "football") (Some "18:00")
             (Some "Pitch 2") (JS.JNumber (JS.Num 10)) JS.JUndefined.

(** A create-game request that announces five and a half players. *)
Definition halfway : ReqBody.t :=
  ReqBody.mk (Some "Sunday kickabout") (Some "football") (Some "18:00")
             (Some "Pitch 2") (JS.JNumber (JS.Val (JS.fin (11 * 2 ^ 1073))))
             JS.JUndefined.

(** A create-game request that announces two players short. *)
Definition short_handed : ReqBody.t :=
  ReqBody.mk (Some "Sunday kickabout") (Some "football") (Some "18:00")
             (Some "Pitch 2") (JS.JNumber (JS.Num (-2))) JS.JUndefined.



(** The same game once it is full. *)
Definition packed : Db :=
  mkDb {[ g1 := Game.with_players (JS.int 6) game5 ]} [].

(** ** Listing routes and posts (lines 101-109 and 150-169) *)

(** What a listing or post route answers: [res.json(a)] or
    [res.status(code).json({ message })]. *)
Inductive Reply (A : Type) :=
| reply_json (a : A)
| reply_error (code : Z) (message : string).
Arguments reply_json {A} a.
Arguments reply_error {A} code message.

(** [sort({ createdAt: -1 })] over documents dated by [date]: descending,
    documents with equal dates stay in the order they are given. *)
Fixpoint insert_newest {A : Type} (date : A → Z) (x : A) (l : list A)
  : list A :=
  match l with
  | [] => [x]
  | h :: t =>
      if date h <=? date x then x :: h :: t
      else h :: insert_newest date x t
  end.

Fixpoint newest_first {A : Type} (date : A → Z) (l : list A) : list A :=
  match l with
  | [] => []
  | x :: t => insert_newest date x (newest_first date t)
  end.

(** The order of [sort({ createdAt: -1 })]. *)
Definition newer_first {A : Type} (date : A → Z) (a b : A) : Prop :=
  date b <= date a.

(** [app.get("/api/games", ..)] (lines 102-109). The stored games are
    taken in the order of the map; among games of equal [createdAt] the
    order of the answer is therefore not meaningful. *)
Definition get_games (e : Env) (d : Db) : Reply (list Game.t) :=
  if find_ok e
  then reply_json (newest_first Game.createdAt (map_to_list (games d)).*2)
  else reply_error 500 "Error fetching games".

Module Post.
(** [postSchema]; [_id] is added by Mongoose. *)
Record author_t := mk_author {
  id : option string;
  name : option string;
}.

Record t := mk {
  _id : string;
  title : option string;
  caption : option string;
  image : option string;
  author : author_t;
  createdAt : Z;
}.
End Post.

Module PostBody.
(** [req.body] of [POST /api/posts]: the paths of [postSchema], each one
    possibly missing, and [_id], given as the ObjectId it casts to. *)
Record t := mk {
  _id : option string;
  title : option string;
  caption : option string;
  image : option string;
  author : Post.author_t;
  createdAt : option Z;
}.
End PostBody.

(** [new Post(req.body)]: paths present in the body are copied, missing
    ones take their defaults. *)
Definition new_Post (e : Env) (b : PostBody.t) : Post.t :=
  Post.mk (default (oid e) (PostBody._id b))
          (PostBody.title b) (PostBody.caption b) (PostBody.image b)
          (PostBody.author b)
          (default (now e) (PostBody.createdAt b)).

(** [newPost.save()] on the posts collection, kept in insertion order. *)
Definition Post_insert (e : Env) (p : Post.t) (ps : list Post.t)
  : Settled (list Post.t) :=
  if save_ok e then
    if bool_decide (Post._id p ∈ Post._id <$> ps) then Rejected
    else Resolved (ps ++ [p])%list
  else Rejected.

(** [app.post("/api/posts", ..)] (lines 161-169); the route touches the
    posts collection only. *)
Definition create_post (e : Env) (b : PostBody.t) (ps : list Post.t)
  : list Post.t * Reply Post.t :=
  let newPost := new_Post e b in
  match Post_insert e newPost ps with
  | Resolved ps' => (ps', reply_json newPost)
  | Rejected => (ps, reply_error 500 "Error creating post")
  end.

(** [app.get("/api/posts", ..)] (lines 151-158). *)
Definition get_posts (e : Env) (ps : list Post.t) : Reply (list Post.t) :=
  if find_ok e
  then reply_json (newest_first Post.createdAt ps)
  else reply_error 500 "Error fetching posts".

(** ** Socket events in sequence *)

(** The events a connected socket sends that change rooms or the store
    ([disconnect] only logs in [server.js]). *)
Inductive SocketEvent :=
| on_join_room (room : option string)
| on_leave_room (room : string)
| on_chat_message (msg : option ChatPayload.t).

(** The handler registered for the event, run for socket [sid]. *)
Definition socket_on (e : Env) (sid : string) (ev : SocketEvent)
    (s : Server) : Server * list Effect :=
  match ev with
  | on_join_room room => join_room e sid room s
  | on_leave_room r => leave_room sid r s
  | on_chat_message msg => chat_message e msg s
  end.

(** Events handled one after the other; the effects are concatenated. *)
Fixpoint relay_run (evs : list (Env * string * SocketEvent)) (s : Server)
  : Server * list Effect :=
  match evs with
  | [] => (s, [])
  | (e, sid, ev) :: evs' =>
      let '(s1, effs1) := socket_on e sid ev s in
      let '(s2, effs2) := relay_run evs' s1 in
      (s2, (effs1 ++ effs2)%list)
  end.

(** The history a [load_messages] emit carries to socket [sid]. *)
Definition loaded (sid : string) (eff : Effect) : option (list Message.t) :=
  match eff with
  | socket_emit sid' "load_messages" (PMessages ms) =>
      if bool_decide (sid' = sid) then Some ms else None
  | _ => None
  end.

(** Every persisted message names a room. *)
Definition rooms_named (d : Db) : Prop :=
  ∀ m, m ∈ messages d → Message.room m ≠ "".

(** The messages of room [r], in insertion order. *)
Definition room_messages (r : string) (d : Db) : list Message.t :=
  filter (λ m, Message.room m = r) (messages d).

(** An environment whose queries are rejected. *)
Definition find_down : Env := mkEnv 1000 "64b0000000000000000000a1" false true.

(** Room [r1] with three messages stored out of date order, and one message
    of another room. *)
Definition chatty : Server :=
  mkServer
    (mkDb ∅
       [Message.mk "64c000000000000000000003" "r1" alice (Some "c") 30;
        Message.mk "64c000000000000000000001" "r1" alice (Some "a") 10;
        Message.mk "64c000000000000000000009" "r2" alice (Some "x") 15;
        Message.mk "64c000000000000000000002" "r1" alice (Some "b") 20])
    {[ "sockA"; "sockB" ]}
    {[ "r1" := {[ "sockA" ]} ]}.

(** Two stored posts and a request body for a third. *)
Definition feed : list Post.t :=
  [Post.mk "64d000000000000000000001" (Some "Cup final") (Some "What a game")
           None (Post.mk_author (Some "u1") (Some "Alice")) 100;
   Post.mk "64d000000000000000000002" (Some "New pitch") None
           (Some "pitch.png") (Post.mk_author (Some "u2") (Some "Bob")) 200].

Definition announcement : PostBody.t :=
  PostBody.mk None (Some "Training moved") (Some "Now on Tuesday") None
              (Post.mk_author (Some "u1") (Some "Alice")) None.

(** * Properties *)

(** ** Doubles that are whole numbers *)

Lemma scale_pos : 0 < JS.scale.
Proof. reflexivity. Qed.

Lemma int_inj (a b : Z) : JS.int a = JS.int b → a = b.
Proof.
  unfold JS.int. intros [= H]. pose proof scale_pos.
  apply Z.mul_cancel_r in H; lia.
Qed.

Lemma le_int (a b : Z) : JS.le (JS.int a) (JS.int b) ↔ a <= b.
Proof.
  unfold JS.int, JS.le. pose proof scale_pos.
  symmetry. by apply Z.mul_le_mono_pos_r.
Qed.

Lemma lt_int (a b : Z) : JS.lt (JS.int a) (JS.int b) ↔ a < b.
Proof.
  unfold JS.int, JS.lt. pose proof scale_pos.
  symmetry. by apply Z.mul_lt_mono_pos_r.
Qed.

(** The test [x >= y] fails exactly when [x < y]: a stored Number is never
    NaN. *)
Lemma geb_lt (x y : JS.double) : JS.geb x y = false ↔ JS.lt x y.
Proof.
  destruct x as [a| |], y as [b| |]; simpl; try done.
  by rewrite Z.leb_gt.
Qed.

Lemma geb_le (x y : JS.double) : JS.geb x y = true ↔ JS.le y x.
Proof.
  destruct x as [a| |], y as [b| |]; simpl; try done.
  by rewrite Z.leb_le.
Qed.

(** An integer of magnitude at most 2^53 needs no rounding. *)
Lemma round53_whole (j : Z) :
  Z.abs j <= 2 ^ 53 → JS.round53 (j * JS.scale) = j * JS.scale.
Proof.
  intros Hj. destruct (decide (Z.abs j = 2 ^ 53)) as [Hmax|Hlt].
  - assert (j = 2 ^ 53 ∨ j = - 2 ^ 53) as [-> | ->] by lia; by vm_compute.
  - assert (Hsmall : Z.abs j < 2 ^ 53) by lia. clear Hj Hlt.
    unfold JS.round53. set (n := j * JS.scale).
    assert (Habs : Z.abs n = Z.abs j * 2 ^ 1074).
    { subst n. by rewrite Z.abs_mul. }
    destruct (Z.leb_spec (Z.log2 (Z.abs n) - 52) 0) as [|Hk]; [done|].
    set (k := Z.log2 (Z.abs n) - 52) in *.
    assert (Hpos : 0 < Z.abs j).
    { destruct (decide (Z.abs j = 0)) as [Hz|]; [|lia].
      rewrite Hz in Habs. subst k. rewrite Habs in Hk. simpl in Hk. lia. }
    assert (Hk' : k <= 1074).
    { subst k. rewrite Habs, Z.log2_mul_pow2 by lia.
      apply Z.log2_lt_pow2 in Hsmall; lia. }
    assert (Hsplit : Z.abs n = Z.abs j * 2 ^ (1074 - k) * 2 ^ k).
    { rewrite Habs, <- Z.mul_assoc, <- Z.pow_add_r by lia.
      do 2 f_equal. lia. }
    assert (H2k : 0 < 2 ^ k) by (apply Z.pow_pos_nonneg; lia).
    assert (Hr : Z.abs n mod 2 ^ k = 0).
    { rewrite Hsplit. apply Z.mod_mul. lia. }
    assert (Hq : Z.abs n / 2 ^ k * 2 ^ k = Z.abs n).
    { rewrite Hsplit. by rewrite Z.div_mul by lia. }
    assert (Hhalf : 0 < 2 ^ (k - 1)) by (apply Z.pow_pos_nonneg; lia).
    rewrite Hr. replace (0 <? 2 ^ (k - 1)) with true
      by (symmetry; by apply Z.ltb_lt).
    rewrite Hq. rewrite Z.mul_comm. apply Z.abs_sgn.
Qed.

(** On the integers from -2^53 to 2^53 - 1 the double [+ 1] adds exactly
    one. *)
Lemma add1_int (k : Z) :
  - 2 ^ 53 <= k < 2 ^ 53 → JS.add1 (JS.int k) = JS.int (k + 1).
Proof.
  intros Hk. unfold JS.add1, JS.int, JS.rounded.
  replace (k * JS.scale + JS.scale) with ((k + 1) * JS.scale) by lia.
  rewrite round53_whole by lia.
  assert (Hbound : 2 ^ 53 * JS.scale <= JS.max_double) by (by vm_compute).
  pose proof scale_pos.
  assert (- (2 ^ 53 * JS.scale) <= (k + 1) * JS.scale <= 2 ^ 53 * JS.scale)
    by nia.
  replace (JS.max_double <? (k + 1) * JS.scale) with false
    by (symmetry; apply Z.ltb_ge; lia).
  by replace ((k + 1) * JS.scale <? - JS.max_double) with false
    by (symmetry; apply Z.ltb_ge; lia).
Qed.

(** Outside that range it does not: ties go to the even significand. *)
Lemma add1_rounds :
  JS.add1 (JS.int (-9007199254740994)) = JS.int (-9007199254740992) ∧
  JS.add1 (JS.int (- 2 ^ 54)) = JS.int (- 2 ^ 54) ∧
  JS.add1 (JS.fin (11 * 2 ^ 1073)) = JS.fin (13 * 2 ^ 1073).
Proof. by vm_compute. Qed.

(** ** Capacity-gated join, one request at a time *)

Lemma join_load_found (e : Env) (id k : string) (d : Db) (g : Game.t) :
  find_ok e = true →
  cast_ObjectId id = Some k →
  games d !! k = Some g →
  join_load e id d =
    if JS.geb (Game.players g) (Game.maxPlayers g)
    then replied (res_status_json 400 "Game is full")
    else saving (Game.with_players (JS.add1 (Game.players g)) g).
Proof.
  intros Hfind Hcast Hg. unfold join_load, Game_findById.
  by rewrite Hfind, Hcast, Hg.
Qed.

Lemma join_load_saving (e : Env) (id : string) (d : Db) (doc : Game.t) :
  join_load e id d = saving doc →
  ∃ k g, cast_ObjectId id = Some k ∧
         games d !! k = Some g ∧
         JS.lt (Game.players g) (Game.maxPlayers g) ∧
         doc = Game.with_players (JS.add1 (Game.players g)) g.
Proof.
  unfold join_load, Game_findById.
  destruct (find_ok e); [|done].
  destruct (cast_ObjectId id) as [k|]; [|done].
  destruct (games d !! k) as [g|] eqn:Hg; [|done].
  destruct (JS.geb (Game.players g) (Game.maxPlayers g)) eqn:Hfull; [done|].
  intros [= <-]. exists k, g. split; [done|]. split; [done|].
  split; [|done]. by apply geb_lt.
Qed.

(** An id that does not cast is answered with the generic failure. *)
Lemma join_game_uncastable (e : Env) (id : string) (d : Db) :
  cast_ObjectId id = None →
  join_game e id d = (d, res_status_json 500 "Error joining game", []).
Proof.
  intros Hcast. unfold join_game, join_load, Game_findById. rewrite Hcast.
  by destruct (find_ok e).
Qed.

(** C1 (as the handler has it). A join request whose id casts to an
    ObjectId, with the store answering: no game under that ObjectId gives
    404 "Game not found"; a game with [players >= maxPlayers] gives 400
    "Game is full"; any other game has [players] replaced by the double
    [players + 1], is written back under its id and is returned (and
    announced); for a whole count from -2^53 to 2^53 - 1 that is exactly one
    more. *)
Theorem join_game_outcome (e : Env) (id k : string) (d : Db) :
  store_up e →
  well_keyed d →
  cast_ObjectId id = Some k →
  (games d !! k = None →
     join_game e id d = (d, res_status_json 404 "Game not found", [])) ∧
  (∀ g, games d !! k = Some g →
     JS.le (Game.maxPlayers g) (Game.players g) →
     join_game e id d = (d, res_status_json 400 "Game is full", [])) ∧
  (∀ g, games d !! k = Some g →
     JS.lt (Game.players g) (Game.maxPlayers g) →
     let g' := Game.with_players (JS.add1 (Game.players g)) g in
     join_game e id d =
       (mkDb (<[k := g']> (games d)) (messages d),
        res_json (json_game g'),
        [io_emit "update_game" (PGame g')]) ∧
     ∀ p, Game.players g = JS.int p → - 2 ^ 53 <= p < 2 ^ 53 →
          Game.players g' = JS.int (p + 1)).
Proof.
  intros [Hfind Hsave] Hkey Hcast. split; [|split].
  - intros Hnone. unfold join_game, join_load, Game_findById.
    by rewrite Hfind, Hcast, Hnone.
  - intros g Hg Hfull. unfold join_game.
    rewrite (join_load_found e id k d g Hfind Hcast Hg).
    by rewrite (proj2 (geb_le _ _) Hfull).
  - intros g Hg Hroom g'. split.
    + unfold join_game.
      rewrite (join_load_found e id k d g Hfind Hcast Hg).
      rewrite (proj2 (geb_lt _ _) Hroom).
      unfold join_save, Game_save_players. rewrite Hsave. simpl.
      rewrite (Hkey k g Hg), Hg. subst g'. by destruct g.
    + intros p Hp Hsafe. subst g'. simpl. rewrite Hp. by apply add1_int.
Qed.

Lemma lobby_well_keyed : well_keyed lobby.
Proof.
  intros id g Hg. simpl in Hg.
  by apply lookup_singleton_Some in Hg as [<- <-].
Qed.

Lemma join_game_outcome_witness :
  join_game up g1 lobby =
    (mkDb (<[g1 := Game.with_players (JS.int 6) game5]> (games lobby)) [],
     res_json (json_game (Game.with_players (JS.int 6) game5)),
     [io_emit "update_game" (PGame (Game.with_players (JS.int 6) game5))]) ∧
  join_game up "64b0000000000000000000ff" lobby =
    (lobby, res_status_json 404 "Game not found", []).
Proof.
  assert (Hup : store_up up) by (split; reflexivity).
  destruct (join_game_outcome up g1 g1 lobby Hup lobby_well_keyed eq_refl)
    as (_ & _ & Hjoin).
  destruct (join_game_outcome up "64b0000000000000000000ff"
              "64b0000000000000000000ff" lobby Hup lobby_well_keyed eq_refl)
    as (Hmissing & _ & _).
  split.
  - destruct (Hjoin game5) as [Hrun _].
    + apply lookup_singleton_eq.
    + apply (proj2 (lt_int _ _)). lia.
    + rewrite Hrun. vm_compute. reflexivity.
  - apply Hmissing. by apply lookup_singleton_ne.
Defined.

(** C1 as stated fails twice. An id that does not cast to an ObjectId names
    no game and yet is answered 500 "Error joining game", not 404. And a
    game with [players = -9007199254740994] and a free place is joined at
    [players = -9007199254740992]: the double [+ 1] has added two. *)
Lemma join_game_outcome_fails :
  ¬ (∀ e id d, store_up e → games d !! id = None →
               status (join_game e id d).1.2 = 404) ∧
  ¬ (∀ e id d g p,
       store_up e → well_keyed d → games d !! id = Some g →
       Game.players g = JS.int p →
       JS.lt (Game.players g) (Game.maxPlayers g) →
       ∃ g', (join_game e id d).1.2 = res_json (json_game g') ∧
             Game.players g' = JS.int (p + 1)).
Proof.
  split.
  - intros Hclaim.
    assert (Hnone : games lobby !! "not-an-id" = None)
      by (by apply lookup_singleton_ne).
    specialize (Hclaim up "not-an-id" lobby (conj eq_refl eq_refl) Hnone).
    discriminate Hclaim.
  - intros Hclaim.
    destruct (Hclaim up g1
                (mkDb {[ g1 := Game.with_players
                                 (JS.int (-9007199254740994)) game5 ]} [])
                (Game.with_players (JS.int (-9007199254740994)) game5)
                (-9007199254740994))
      as (g' & Hrun & Hplayers).
    + split; reflexivity.
    + intros id g Hg. simpl in Hg.
      by apply lookup_singleton_Some in Hg as [<- <-].
    + apply lookup_singleton_eq.
    + reflexivity.
    + apply (proj2 (lt_int _ _)). lia.
    + vm_compute in Hrun. injection Hrun as <-.
      vm_compute in Hplayers. discriminate Hplayers.
Qed.

(** C10. When a join request is answered 404 or 400 the store is the one it
    started from and nothing is emitted; whenever the handler emits
    anything, it is the single [update_game] broadcast of the incremented
    game, the save of that game has resolved into the new store, and the
    response is that game. *)
Theorem join_game_failure_leaves_store (e : Env) (id : string) (d d' : Db)
    (r : Response) (effs : list Effect) :
  join_game e id d = (d', r, effs) →
  (status r = 404 ∨ status r = 400 → d' = d ∧ effs = []) ∧
  (∀ eff, eff ∈ effs →
     ∃ k g, let g' := Game.with_players (JS.add1 (Game.players g)) g in
            cast_ObjectId id = Some k ∧
            games d !! k = Some g ∧
            JS.lt (Game.players g) (Game.maxPlayers g) ∧
            Game_save_players e g' d = Resolved d' ∧
            effs = [io_emit "update_game" (PGame g')] ∧
            r = res_json (json_game g')).
Proof.
  unfold join_game. destruct (join_load e id d) as [r0|doc] eqn:Hload.
  - intros [= <- <- <-]. split; [done|]. intros eff Hin. by inversion Hin.
  - apply join_load_saving in Hload as (k & g & Hcast & Hg & Hroom & ->).
    unfold join_save.
    destruct (Game_save_players _ _ d) as [d1|] eqn:Hsave;
      intros [= <- <- <-].
    + split; [intros [?|?]; discriminate|].
      intros eff _. by exists k, g.
    + split; [done|]. intros eff Hin. by inversion Hin.
Qed.

Lemma join_game_failure_leaves_store_witness :
  (join_game up g1 packed).1.1 = packed ∧ (join_game up g1 packed).2 = [].
Proof.
  destruct (join_game_failure_leaves_store up g1 packed
              (join_game up g1 packed).1.1 (join_game up g1 packed).1.2
              (join_game up g1 packed).2 eq_refl) as [Hquiet _].
  apply Hquiet. right. reflexivity.
Defined.

(** ** Game creation *)

Section Creation.
Variable StringToNumber : string -> JS.jsnum.

Lemma create_game_stores (e : Env) (b : ReqBody.t) (d : Db) :
  save_ok e = true →
  games d !! oid e = None →
  create_game StringToNumber e b d =
    (mkDb (<[oid e := new_Game StringToNumber e b]> (games d)) (messages d),
     res_json (json_game (new_Game StringToNumber e b)),
     []).
Proof.
  intros Hsave Hfresh. unfold create_game, Game_insert.
  rewrite Hsave. simpl. by rewrite Hfresh.
Qed.

(** C7. A create-game request whose body has neither [maxPlayers] nor
    [players], once its save goes through, stores and returns a game with
    [maxPlayers = 6] and [players = 0]. *)
Theorem create_game_defaults (e : Env) (b : ReqBody.t) (d : Db) :
  ReqBody.maxPlayers b = JS.JUndefined →
  ReqBody.players b = JS.JUndefined →
  save_ok e = true →
  games d !! oid e = None →
  ∃ g, create_game StringToNumber e b d =
         (mkDb (<[oid e := g]> (games d)) (messages d),
          res_json (json_game g), []) ∧
       Game.maxPlayers g = JS.int 6 ∧ Game.players g = JS.int 0.
Proof.
  intros _ Hplayers Hsave Hfresh.
  exists (new_Game StringToNumber e b).
  split; [by apply create_game_stores|].
  unfold new_Game. simpl. by rewrite Hplayers.
Qed.

(** C9. The [maxPlayers] of the request body has no influence on what the
    create-game handler does, and the game it stores and returns, once its
    save goes through, has [maxPlayers = 6]. *)
Theorem create_game_maxPlayers_fixed (e : Env) (b : ReqBody.t) (d : Db)
    (v : JS.jsval) :
  save_ok e = true →
  games d !! oid e = None →
  create_game StringToNumber e (ReqBody.with_maxPlayers v b) d =
    create_game StringToNumber e b d ∧
  ∃ g, create_game StringToNumber e (ReqBody.with_maxPlayers v b) d =
         (mkDb (<[oid e := g]> (games d)) (messages d),
          res_json (json_game g), []) ∧
       Game.maxPlayers g = JS.int 6.
Proof.
  intros Hsave Hfresh. split; [done|].
  exists (new_Game StringToNumber e (ReqBody.with_maxPlayers v b)).
  split; [by apply create_game_stores|done].
Qed.
End Creation.

Lemma create_game_defaults_witness :
  ∃ g, create_game JS.digits_to_number up
         (ReqBody.mk (Some "Sunday kickabout") (Some "football")
                     (Some "18:00") (Some "Pitch 2")
                     JS.JUndefined JS.JUndefined) nothing =
         (mkDb (<[oid up := g]> ∅) [], res_json (json_game g), []) ∧
       Game.maxPlayers g = JS.int 6 ∧ Game.players g = JS.int 0.
Proof.
  apply (create_game_defaults JS.digits_to_number up
           (ReqBody.mk (Some "Sunday kickabout") (Some "football")
                       (Some "18:00") (Some "Pitch 2")
                       JS.JUndefined JS.JUndefined) nothing);
    reflexivity.
Defined.

Lemma create_game_maxPlayers_fixed_witness :
  let b := ReqBody.mk (Some "Sunday kickabout") (Some "football")
                      (Some "18:00") (Some "Pitch 2")
                      (JS.JString "2") JS.JUndefined in
  create_game JS.digits_to_number up
    (ReqBody.with_maxPlayers (JS.JNumber (JS.Num 22)) b) nothing =
    create_game JS.digits_to_number up b nothing ∧
  ∃ g, create_game JS.digits_to_number up
         (ReqBody.with_maxPlayers (JS.JNumber (JS.Num 22)) b) nothing =
         (mkDb (<[oid up := g]> ∅) [], res_json (json_game g), []) ∧
       Game.maxPlayers g = JS.int 6.
Proof.
  intros b.
  apply (create_game_maxPlayers_fixed JS.digits_to_number up b nothing
           (JS.JNumber (JS.Num 22))); reflexivity.
Defined.

(** ** Room relay: sending *)

Lemma room_given_Some (room : option string) (r : string) :
  room_given room = Some r ↔ room = Some r ∧ r ≠ "".
Proof.
  unfold room_given. destruct room as [r0|]; simpl.
  - destruct (String.eqb_spec r0 "") as [->|Hne]; simpl.
    + split; [done|]. by intros [[= <-] ?].
    + split; [by intros [= <-]|]. by intros [[= <-] _].
  - split; [done|]. by intros [? _].
Qed.

Lemma room_given_None (room : option string) :
  room_given room = None ↔ room = None ∨ room = Some "".
Proof.
  unfold room_given. destruct room as [r0|]; simpl.
  - destruct (String.eqb_spec r0 "") as [->|Hne]; simpl.
    + split; [by right|done].
    + split; [done|]. intros [?|[= ?]]; done.
  - split; [by left|done].
Qed.

(** C6. A [chat_message] without a message object, without a room or with
    the empty room changes nothing and has no effect at all. With a room,
    when the save is rejected the server state is unchanged, the only
    effect is the error log line, and no socket is sent anything. *)
Theorem chat_message_dropped (e : Env) (s : Server) :
  (∀ msg, msg = None ∨
          (∃ m, msg = Some m ∧
                (ChatPayload.room m = None ∨ ChatPayload.room m = Some "")) →
     chat_message e msg s = (s, [])) ∧
  (∀ m r, ChatPayload.room m = Some r → r ≠ "" →
     Message_insert e (new_Message e r m) (db s) = Rejected →
     chat_message e (Some m) s = (s, [console_error error_saving_message]) ∧
     ∀ eff, eff ∈ (chat_message e (Some m) s).2 →
            ¬ is_emit eff ∧ recipients s eff = ∅).
Proof.
  split.
  - intros msg [->|(m & -> & Hroom)]; [done|].
    unfold chat_message. apply room_given_None in Hroom. by rewrite Hroom.
  - intros m r Hroom Hr Hsave.
    assert (Hrun : chat_message e (Some m) s =
                   (s, [console_error error_saving_message])).
    { unfold chat_message.
      rewrite (proj2 (room_given_Some _ r) (conj Hroom Hr)).
      by rewrite Hsave. }
    split; [done|]. rewrite Hrun. simpl.
    intros eff ->%list_elem_of_singleton. split; [|done]. by intros [].
Qed.

(** The save of a chat message is rejected exactly when the driver fails or
    the [_id] is already in the collection. *)
Lemma Message_insert_ok (e : Env) (m : Message.t) (d : Db) :
  save_ok e = true →
  Message._id m ∉ Message._id <$> messages d →
  Message_insert e m d = Resolved (mkDb (games d) (messages d ++ [m])).
Proof.
  intros Hsave Hfresh. unfold Message_insert. rewrite Hsave.
  by rewrite bool_decide_eq_false_2.
Qed.

(** C5 (as the handler has it). For a [chat_message] with a non-empty room
    whose save goes through, the stored message has the room, author and
    text of the payload; its [createdAt] is the payload's [createdAt] when
    the client supplied one and the server clock otherwise; and the value
    broadcast to the members of the room is that stored record, with its id
    and timestamp. *)
Theorem chat_message_persist_broadcast (e : Env) (m : ChatPayload.t)
    (r : string) (s : Server) :
  ChatPayload.room m = Some r → r ≠ "" →
  save_ok e = true →
  default (oid e) (ChatPayload._id m) ∉ Message._id <$> messages (db s) →
  ∃ stored,
    chat_message e (Some m) s =
      (mkServer (mkDb (games (db s)) (messages (db s) ++ [stored]))
                (sockets s) (rooms s),
       [io_to_emit r "chat_message" (PMessage stored)]) ∧
    recipients s (io_to_emit r "chat_message" (PMessage stored))
      = members r s ∧
    Message.room stored = r ∧
    Message.author stored = ChatPayload.author m ∧
    Message.text stored = ChatPayload.text m ∧
    Message._id stored = default (oid e) (ChatPayload._id m) ∧
    Message.createdAt stored =
      match ChatPayload.createdAt m with
      | Some t => t
      | None => now e
      end.
Proof.
  intros Hroom Hr Hsave Hfresh. exists (new_Message e r m).
  split; [|repeat split; by destruct (ChatPayload.createdAt m)].
  unfold chat_message.
  rewrite (proj2 (room_given_Some _ r) (conj Hroom Hr)).
  by rewrite Message_insert_ok.
Qed.

Lemma chat_message_persist_broadcast_witness :
  ∃ stored,
    chat_message up (Some hi) relay =
      (mkServer (mkDb ∅ [stored]) (sockets relay) (rooms relay),
       [io_to_emit "r1" "chat_message" (PMessage stored)]) ∧
    recipients relay (io_to_emit "r1" "chat_message" (PMessage stored))
      = members "r1" relay ∧
    Message.room stored = "r1" ∧
    Message.author stored = alice ∧
    Message.text stored = Some "hi" ∧
    Message._id stored = oid up ∧
    Message.createdAt stored = 1000.
Proof.
  apply (chat_message_persist_broadcast up hi "r1" relay).
  - reflexivity.
  - discriminate.
  - reflexivity.
  - simpl. apply not_elem_of_nil.
Defined.

(** C5 as stated fails: a payload that carries [createdAt = 5] is stored and
    broadcast with that timestamp although the server clock reads 1000. *)
Lemma chat_message_client_timestamp :
  ¬ (∀ e m r s s' effs stored,
       ChatPayload.room m = Some r → r ≠ "" →
       chat_message e (Some m) s = (s', effs) →
       stored ∈ messages (db s') → stored ∉ messages (db s) →
       Message.createdAt stored = now e).
Proof.
  intros Hclaim.
  specialize (Hclaim up backdated "r1" relay
                (mkServer (mkDb ∅ [new_Message up "r1" backdated])
                          (sockets relay) (rooms relay))
                [io_to_emit "r1" "chat_message"
                   (PMessage (new_Message up "r1" backdated))]
                (new_Message up "r1" backdated)).
  simpl in Hclaim.
  assert (5 = 1000) as Habs; [|lia].
  apply Hclaim.
  - reflexivity.
  - discriminate.
  - reflexivity.
  - apply list_elem_of_singleton. reflexivity.
  - apply not_elem_of_nil.
Qed.

(** ** Room relay: joining *)

Lemma join_room_ignored (e : Env) (sid : string) (room : option string)
    (s : Server) :
  room = None ∨ room = Some "" → join_room e sid room s = (s, []).
Proof.
  intros Hroom. unfold join_room.
  by rewrite (proj2 (room_given_None room) Hroom).
Qed.

(** With a room name the socket is entered in the room and it alone is sent
    [load_messages] with at most 50 messages of that room, the first 50 in
    ascending [createdAt] order. *)
Lemma join_room_delivery (e : Env) (sid r : string) (s : Server) :
  r ≠ "" → find_ok e = true →
  let history :=
    take 50 (sort_createdAt
               (filter (λ m, Message.room m = r) (messages (db s)))) in
  join_room e sid (Some r) s =
    (socket_join sid r s,
     [console_log (joined_room sid r);
      socket_emit sid "load_messages" (PMessages history)]) ∧
  sid ∈ members r (socket_join sid r s) ∧
  recipients (socket_join sid r s)
    (socket_emit sid "load_messages" (PMessages history)) = {[sid]}.
Proof.
  intros Hr Hfind history. split; [|split; [|done]].
  - unfold join_room, Message_find_room.
    rewrite (proj2 (room_given_Some (Some r) r) (conj eq_refl Hr)).
    by rewrite Hfind.
  - unfold members, socket_join. simpl. rewrite lookup_insert_eq. simpl.
    set_solver.
Qed.

Lemma insert_createdAt_perm (m : Message.t) (l : list Message.t) :
  insert_createdAt m l ≡ₚ m :: l.
Proof.
  induction l as [|h t IH]; simpl; [done|].
  destruct (Message.createdAt m <=? Message.createdAt h); [done|].
  rewrite IH. apply Permutation_swap.
Qed.

Lemma sort_createdAt_perm (l : list Message.t) : sort_createdAt l ≡ₚ l.
Proof.
  induction l as [|m t IH]; simpl; [done|].
  by rewrite insert_createdAt_perm, IH.
Qed.

Lemma insert_createdAt_sorted (m : Message.t) (l : list Message.t) :
  Sorted by_createdAt l → Sorted by_createdAt (insert_createdAt m l).
Proof.
  induction 1 as [|h t Hsorted IH Hhd]; simpl.
  - by repeat constructor.
  - destruct (Message.createdAt m <=? Message.createdAt h) eqn:Hle.
    + apply Z.leb_le in Hle. by repeat constructor.
    + apply Z.leb_gt in Hle. constructor; [done|].
      destruct Hhd as [|h' t' Hh']; simpl.
      * constructor. unfold by_createdAt. lia.
      * destruct (Message.createdAt m <=? Message.createdAt h');
          constructor; unfold by_createdAt in *; lia.
Qed.

Lemma sort_createdAt_sorted (l : list Message.t) :
  Sorted by_createdAt (sort_createdAt l).
Proof.
  induction l as [|m t IH]; simpl; [constructor|].
  by apply insert_createdAt_sorted.
Qed.

(** A room with at most 50 messages is replayed whole. *)
Lemma join_room_short_history (e : Env) (r : string) (d : Db)
    (msgs : list Message.t) :
  Message_find_room e r d = Resolved msgs →
  (length (filter (λ m, Message.room m = r) (messages d)) <= 50)%nat →
  msgs ≡ₚ filter (λ m, Message.room m = r) (messages d) ∧
  Sorted by_createdAt msgs.
Proof.
  unfold Message_find_room. destruct (find_ok e); [|done].
  intros [= <-] Hlen. rewrite take_ge.
  - split; [apply sort_createdAt_perm | apply sort_createdAt_sorted].
  - by rewrite sort_createdAt_perm.
Qed.

(** C4 on a room of 51 messages: the joining socket is sent the messages of
    times 1 to 50; the message of time 51, the newest of the room, is not
    among them, and the oldest one is. *)
Theorem join_room_sends_oldest_50 :
  join_room up "sockB" (Some "r1") busy =
    (socket_join "sockB" "r1" busy,
     [console_log (joined_room "sockB" "r1");
      socket_emit "sockB" "load_messages" (PMessages (note <$> seq 1 50))]) ∧
  note 51 ∈ messages (db busy) ∧
  (∀ m, m ∈ messages (db busy) →
        Message.createdAt m <= Message.createdAt (note 51)) ∧
  (note 51 ∉ note <$> seq 1 50) ∧
  (note 1 ∈ note <$> seq 1 50).
Proof.
  split; [|split; [|split; [|split]]].
  - assert (Hr : "r1" ≠ "") by done.
    destruct (join_room_delivery up "sockB" "r1" busy Hr eq_refl) as [-> _].
    reflexivity.
  - apply list_elem_of_fmap. exists 51%nat. split; [done|].
    apply elem_of_seq. lia.
  - intros m (i & -> & Hi%elem_of_seq)%list_elem_of_fmap. simpl. lia.
  - intros (i & Heq & Hi%elem_of_seq)%list_elem_of_fmap.
    apply (f_equal Message.createdAt) in Heq. simpl in Heq. lia.
  - apply list_elem_of_fmap. exists 1%nat. split; [done|].
    apply elem_of_seq. lia.
Qed.

(** ** CORS boundary *)

(** A request without an Origin header, or with an empty one, passes the
    check: this is the [!origin] disjunct. *)
Lemma cors_no_origin (origin : option string) :
  origin = None ∨ origin = Some "" → corsOptions_origin origin = callback_ok.
Proof. by intros [->| ->]. Qed.

(** C8 (as the check has it). A request with a non-empty Origin that is not
    in [allowedOrigins] gets the callback error, its route is not run and
    the store is untouched; a request with an Origin of the list passes and
    is served by its route. *)
Theorem cors_boundary (o : string)
    (route : Db → Db * Response * list Effect) (d : Db) :
  o ≠ "" →
  (o ∉ allowedOrigins →
     corsOptions_origin (Some o) = callback_error "Not allowed by CORS" ∧
     app_handle (Some o) route d = (d, blocked "Not allowed by CORS", [])) ∧
  (o ∈ allowedOrigins →
     corsOptions_origin (Some o) = callback_ok ∧
     app_handle (Some o) route d =
       ((route d).1.1, served (route d).1.2, (route d).2)).
Proof.
  intros Ho. unfold app_handle, corsOptions_origin. simpl.
  destruct (String.eqb_spec o "") as [|_]; [done|]. simpl.
  split; intros Hin.
  - by rewrite bool_decide_eq_false_2.
  - rewrite bool_decide_eq_true_2 by done.
    split; [done|]. by destruct (route d) as [[d' r] effs].
Qed.

Lemma cors_boundary_witness :
  app_handle (Some "https://evil.example") (join_game up g1) lobby =
    (lobby, blocked "Not allowed by CORS", []) ∧
  app_handle (Some "http://localhost:5173") (join_game up g1) lobby =
    ((join_game up g1 lobby).1.1, served (join_game up g1 lobby).1.2,
     (join_game up g1 lobby).2).
Proof.
  split.
  - apply (cors_boundary "https://evil.example" (join_game up g1) lobby).
    + discriminate.
    + unfold allowedOrigins. intros Hin.
      apply elem_of_cons in Hin as [Heq|Hin]; [discriminate|].
      apply elem_of_cons in Hin as [Heq|Hin]; [discriminate|].
      by apply elem_of_nil in Hin.
  - apply (cors_boundary "http://localhost:5173" (join_game up g1) lobby).
    + discriminate.
    + unfold allowedOrigins. apply elem_of_cons. by left.
Defined.

(** C8 as stated fails: the empty Origin is not in the allow-list and yet
    the check accepts it and the route runs. *)
Lemma cors_empty_origin_passes :
  ¬ (∀ o, o ∉ allowedOrigins →
          ∃ err, corsOptions_origin (Some o) = callback_error err).
Proof.
  intros Hclaim. destruct (Hclaim "") as [err Herr]; [|discriminate Herr].
  unfold allowedOrigins. intros Hin.
  apply elem_of_cons in Hin as [Heq|Hin]; [discriminate|].
  apply elem_of_cons in Hin as [Heq|Hin]; [discriminate|].
  by apply elem_of_nil in Hin.
Qed.


(** ** Joins racing for the last place *)

(** The two turns of a join request, run back to back, are [join_game]. *)
Lemma join_game_as_turns (StringToNumber : string → JS.jsnum) (rid : nat)
    (e : Env) (id : string) (d : Db) :
  let y := run StringToNumber [arrive_join rid id; resume rid e; resume rid e]
               (boot d) in
  store y = (join_game e id d).1.1 ∧
  replies y = [(rid, (join_game e id d).1.2)] ∧
  emitted y = (join_game e id d).2.
Proof.
  unfold run, boot, join_game. simpl. rewrite lookup_empty. simpl.
  rewrite lookup_insert_eq.
  destruct (join_load e id d) as [r|doc]; simpl.
  - by rewrite lookup_delete_eq.
  - rewrite lookup_insert_eq.
    by destruct (join_save e doc d) as [[d' r] effs].
Qed.


(** C2 on two interleaved requests: with one place left, both requests read
    [players = 5], both pass the guard, both save [players = 6] and both are
    answered with the game: two joins succeed where one place was free. *)
Theorem join_race_both_succeed :
  let y := run JS.digits_to_number race (boot lobby) in
  replies y =
    [(1%nat, res_json (json_game (Game.with_players (JS.int 6) game5)));
     (2%nat, res_json (json_game (Game.with_players (JS.int 6) game5)))] ∧
  succeeded (replies y) = [1%nat; 2%nat] ∧
  Game.players game5 = JS.int 5 ∧ Game.maxPlayers game5 = JS.int 6 ∧
  Z.of_nat (length (succeeded (replies y))) > 6 - 5 ∧
  games (store y) !! g1 = Some (Game.with_players (JS.int 6) game5) ∧
  inflight y = ∅.
Proof.
  vm_compute. repeat split; reflexivity.
Qed.

(** One request after the other, no more joins succeed than places were
    free: the guard is sound when the two turns of a handler are not
    separated. *)
Lemma join_game_step (e : Env) (id k : string) (d : Db) (g : Game.t) :
  well_keyed d → cast_ObjectId id = Some k → games d !! k = Some g →
  (status (join_game e id d).1.2 = 200 ∧
   JS.lt (Game.players g) (Game.maxPlayers g) ∧
   (join_game e id d).1.1 =
     mkDb (<[k := Game.with_players (JS.add1 (Game.players g)) g]> (games d))
          (messages d)) ∨
  (status (join_game e id d).1.2 ≠ 200 ∧ (join_game e id d).1.1 = d).
Proof.
  intros Hkey Hcast Hg. unfold join_game, join_load, Game_findById.
  destruct (find_ok e); [|by right].
  rewrite Hcast, Hg.
  destruct (JS.geb (Game.players g) (Game.maxPlayers g)) eqn:Hfull;
    [by right|].
  apply geb_lt in Hfull.
  unfold join_save, Game_save_players.
  destruct (save_ok e); [|by right]. simpl.
  rewrite (Hkey k g Hg), Hg. left. simpl. by destruct g.
Qed.

Lemma well_keyed_update (d : Db) (id : string) (g : Game.t) :
  well_keyed d → Game._id g = id →
  well_keyed (mkDb (<[id := g]> (games d)) (messages d)).
Proof.
  intros Hkey Hid k g' Hlook. simpl in Hlook.
  destruct (decide (id = k)) as [<-|Hne].
  - rewrite lookup_insert_eq in Hlook. by injection Hlook as <-.
  - rewrite lookup_insert_ne in Hlook by done. by apply Hkey.
Qed.

(** X10. Join requests handled one after the other, whether or not the
    store answers each of them: no more of them succeed than the game had
    free places. *)

(** X10. Join requests for a game with whole counts (players from -2^53,
    maxPlayers up to 2^53) handled one after the other, whether or not the
    store answers each of them: no more of them succeed than the game had
    free places, none if it had none. *)
Lemma join_all_bounded (es : list Env) (id k : string) :
  ∀ (d : Db) (g : Game.t) (p m : Z),
    well_keyed d → cast_ObjectId id = Some k → games d !! k = Some g →
    Game.players g = JS.int p → Game.maxPlayers g = JS.int m →
    - 2 ^ 53 <= p → m <= 2 ^ 53 →
    Z.of_nat (length (filter (λ r, status r = 200) (join_all es id d).2))
      <= Z.max 0 (m - p).
Proof.
  induction es as [|e es IH]; intros d g p m Hkey Hcast Hg Hp Hm Hlow Hhigh;
    cbn [join_all]; [simpl; lia|].
  destruct (join_game_step e id k d g Hkey Hcast Hg)
    as [(Hok & Hroom & Hd)|[Hko Hd]];
    destruct (join_game e id d) as [[d1 r] effs]; cbn [fst snd] in *; subst d1.
  - rewrite Hp, Hm in Hroom. apply (proj1 (lt_int _ _)) in Hroom.
    set (g' := Game.with_players (JS.add1 (Game.players g)) g).
    assert (Hkey' : well_keyed (mkDb (<[k := g']> (games d)) (messages d))).
    { apply well_keyed_update; [done|]. subst g'. simpl. by apply Hkey. }
    assert (Hp' : Game.players g' = JS.int (p + 1)).
    { subst g'. simpl. rewrite Hp. apply add1_int. lia. }
    assert (Hm' : Game.maxPlayers g' = JS.int m) by done.
    specialize (IH _ g' (p + 1) m Hkey' Hcast (lookup_insert_eq _ _ _)
                  Hp' Hm').
    destruct (join_all es id _) as [d2 rs]. cbn [fst snd] in *.
    rewrite filter_cons_True by done. cbn [length].
    assert (Z.of_nat (length (filter (λ r, status r = 200) rs))
              <= Z.max 0 (m - (p + 1))) by (apply IH; lia).
    lia.
  - specialize (IH d g p m Hkey Hcast Hg Hp Hm Hlow Hhigh).
    destruct (join_all es id d) as [d2 rs]. cbn [fst snd] in *.
    rewrite filter_cons_False by done. lia.
Qed.

(** ** The capacity invariant under interleaving *)

Section Invariant.
Variable StringToNumber : string -> JS.jsnum.











End Invariant.

Lemma nothing_well_keyed : well_keyed nothing.
Proof. intros id g Hg. simpl in Hg. by rewrite lookup_empty in Hg. Qed.




(** A count that is not whole slips through the guard: created with five
    and a half players, the game is joined once and stored with six and a
    half, above its [maxPlayers] of six. *)
Lemma fractional_count_exceeds_capacity :
  ∃ g, games (store (run JS.digits_to_number
                       [post_game 0 up halfway;
                        arrive_join 1 (oid up); resume 1 up; resume 1 up]
                       (boot nothing))) !! oid up = Some g ∧
       Game.players g = JS.fin (13 * 2 ^ 1073) ∧
       Game.maxPlayers g = JS.int 6 ∧
       ¬ JS.le (Game.players g) (Game.maxPlayers g).
Proof.
  eexists. split; [vm_compute; reflexivity|].
  split; [vm_compute; reflexivity|]. split; [reflexivity|].
  vm_compute. intros H. by apply H.
Qed.

(** * Further properties of the handlers *)

(** ** Joining and leaving rooms *)

Lemma by_createdAt_trans : Transitive by_createdAt.
Proof. intros a b c. unfold by_createdAt. lia. Qed.

Lemma take_oldest (n : nat) (l : list Message.t) (x y : Message.t) :
  Sorted by_createdAt l →
  x ∈ take n l → y ∈ l → y ∉ take n l → by_createdAt x y.
Proof.
  intros Hsorted Hx Hy Hny.
  apply (@Sorted_StronglySorted _ _ by_createdAt_trans) in Hsorted.
  rewrite <- (take_drop n l) in Hsorted, Hy.
  apply elem_of_app in Hy as [Hy|Hy]; [done|].
  by eapply StronglySorted_app_1_elem_of.
Qed.

Lemma join_room_effects (e : Env) (sid r : string) (s : Server) :
  r ≠ "" → find_ok e = true →
  join_room e sid (Some r) s =
    (socket_join sid r s,
     [console_log (joined_room sid r);
      socket_emit sid "load_messages"
        (PMessages (take 50 (sort_createdAt (room_messages r (db s)))))]).
Proof.
  intros Hr Hfind. unfold join_room, Message_find_room.
  rewrite (proj2 (room_given_Some (Some r) r) (conj eq_refl Hr)).
  by rewrite Hfind.
Qed.

(** X1. The history sent on [join_room] has at most 50 messages, in ascending
    [createdAt] order, all of them persisted messages of the room; and a
    message of the room that is left out is at least as recent as every
    message sent. *)
Theorem join_room_history (e : Env) (sid r : string) (s : Server) :
  r ≠ "" → find_ok e = true →
  ∃ history,
    (join_room e sid (Some r) s).2 =
      [console_log (joined_room sid r);
       socket_emit sid "load_messages" (PMessages history)] ∧
    (length history ≤ 50)%nat ∧
    Sorted by_createdAt history ∧
    (∀ m, m ∈ history → m ∈ messages (db s) ∧ Message.room m = r) ∧
    (∀ m m', m ∈ history →
             m' ∈ messages (db s) → Message.room m' = r → m' ∉ history →
             Message.createdAt m <= Message.createdAt m').
Proof.
  intros Hr Hfind.
  exists (take 50 (sort_createdAt (room_messages r (db s)))).
  rewrite join_room_effects by done.
  split; [done|]. split; [rewrite length_take; lia|].
  pose proof (sort_createdAt_sorted (room_messages r (db s))) as Hsorted.
  split; [|split].
  - apply (@Sorted_StronglySorted _ _ by_createdAt_trans) in Hsorted.
    rewrite <- (take_drop 50) in Hsorted.
    apply StronglySorted_app_1_l in Hsorted.
    by apply StronglySorted_Sorted.
  - intros m Hm.
    assert (Hin : m ∈ sort_createdAt (room_messages r (db s))).
    { rewrite <- (take_drop 50). apply elem_of_app. by left. }
    rewrite sort_createdAt_perm in Hin.
    apply list_elem_of_filter in Hin as [Hroom Hin]. done.
  - intros m m' Hm Hm' Hroom Hout.
    apply (take_oldest 50 (sort_createdAt (room_messages r (db s))));
      [done|done| |done].
    rewrite sort_createdAt_perm. by apply list_elem_of_filter.
Qed.

Lemma join_room_history_witness :
  ∃ history,
    (join_room up "sockB" (Some "r1") busy).2 =
      [console_log (joined_room "sockB" "r1");
       socket_emit "sockB" "load_messages" (PMessages history)] ∧
    (length history ≤ 50)%nat ∧
    Sorted by_createdAt history ∧
    (∀ m, m ∈ history → m ∈ messages (db busy) ∧ Message.room m = "r1") ∧
    (∀ m m', m ∈ history →
             m' ∈ messages (db busy) → Message.room m' = "r1" →
             m' ∉ history →
             Message.createdAt m <= Message.createdAt m').
Proof.
  apply (join_room_history up "sockB" "r1" busy); [discriminate|reflexivity].
Defined.

(** X2. A room of at most 50 messages is replayed whole: the history sent is a
    rearrangement of all persisted messages of the room, in ascending
    [createdAt] order. *)
Theorem join_room_replays_small_room (e : Env) (sid r : string)
    (s : Server) :
  r ≠ "" → find_ok e = true →
  (length (room_messages r (db s)) ≤ 50)%nat →
  ∃ history,
    (join_room e sid (Some r) s).2 =
      [console_log (joined_room sid r);
       socket_emit sid "load_messages" (PMessages history)] ∧
    history ≡ₚ room_messages r (db s) ∧
    Sorted by_createdAt history.
Proof.
  intros Hr Hfind Hlen.
  exists (sort_createdAt (room_messages r (db s))).
  rewrite join_room_effects by done.
  rewrite take_ge by (by rewrite sort_createdAt_perm).
  split; [done|].
  split; [apply sort_createdAt_perm | apply sort_createdAt_sorted].
Qed.

(** X3. When the query of [join_room] is rejected the socket has nevertheless
    been entered in the room; it is sent nothing, the store is untouched
    and the failure is only logged. *)
Theorem join_room_load_failure (e : Env) (sid r : string) (s : Server) :
  r ≠ "" → find_ok e = false →
  sid ∈ members r (join_room e sid (Some r) s).1 ∧
  db (join_room e sid (Some r) s).1 = db s ∧
  (join_room e sid (Some r) s).2 =
    [console_log (joined_room sid r);
     console_error error_loading_messages] ∧
  ∀ eff, eff ∈ (join_room e sid (Some r) s).2 → ¬ is_emit eff.
Proof.
  intros Hr Hfind. unfold join_room, Message_find_room.
  rewrite (proj2 (room_given_Some (Some r) r) (conj eq_refl Hr)).
  rewrite Hfind. simpl. split; [|split; [done|split; [done|]]].
  - unfold members. simpl. rewrite lookup_insert_eq. simpl. set_solver.
  - intros eff Hin.
    apply elem_of_cons in Hin as [->|Hin]; [by intros []|].
    apply list_elem_of_singleton in Hin as ->. by intros [].
Qed.

Lemma join_room_replays_small_room_witness :
  ∃ history,
    (join_room up "sockB" (Some "r1") chatty).2 =
      [console_log (joined_room "sockB" "r1");
       socket_emit "sockB" "load_messages" (PMessages history)] ∧
    history ≡ₚ room_messages "r1" (db chatty) ∧
    Sorted by_createdAt history.
Proof.
  apply (join_room_replays_small_room up "sockB" "r1" chatty).
  - discriminate.
  - reflexivity.
  - vm_compute. lia.
Defined.

Lemma join_room_load_failure_witness :
  "sockB" ∈ members "r1" (join_room find_down "sockB" (Some "r1") chatty).1 ∧
  db (join_room find_down "sockB" (Some "r1") chatty).1 = db chatty ∧
  (join_room find_down "sockB" (Some "r1") chatty).2 =
    [console_log (joined_room "sockB" "r1");
     console_error error_loading_messages] ∧
  ∀ eff, eff ∈ (join_room find_down "sockB" (Some "r1") chatty).2 →
         ¬ is_emit eff.
Proof.
  apply (join_room_load_failure find_down "sockB" "r1" chatty);
    [discriminate|reflexivity].
Defined.

Lemma members_socket_join (sid r r' : string) (s : Server) :
  members r' (socket_join sid r s) =
    if decide (r = r') then {[sid]} ∪ members r s else members r' s.
Proof.
  unfold members at 1, socket_join. simpl.
  destruct (decide (r = r')) as [<-|Hne].
  - by rewrite lookup_insert_eq.
  - by rewrite lookup_insert_ne.
Qed.

Lemma members_socket_leave (sid r r' : string) (s : Server) :
  members r' (socket_leave sid r s) =
    if decide (r = r') then members r s ∖ {[sid]} else members r' s.
Proof.
  unfold members at 1, socket_leave. simpl.
  destruct (decide (r = r')) as [<-|Hne].
  - by rewrite lookup_insert_eq.
  - by rewrite lookup_insert_ne.
Qed.

Lemma join_room_state (e : Env) (sid r : string) (s : Server) :
  r ≠ "" → (join_room e sid (Some r) s).1 = socket_join sid r s.
Proof.
  intros Hr. unfold join_room.
  rewrite (proj2 (room_given_Some (Some r) r) (conj eq_refl Hr)).
  by destruct (Message_find_room e r (db (socket_join sid r s))).
Qed.

(** X4. [join_room] with a room name, whether or not the history can be loaded,
    makes the socket a member of that room and changes nothing else: the
    other members of the room, every other room, the connected sockets and
    the store are as before. *)
Theorem join_room_membership (e : Env) (sid r : string) (s : Server) :
  r ≠ "" →
  let s' := (join_room e sid (Some r) s).1 in
  members r s' = {[sid]} ∪ members r s ∧
  (∀ r', r' ≠ r → members r' s' = members r' s) ∧
  sockets s' = sockets s ∧ db s' = db s.
Proof.
  intros Hr s'. subst s'. rewrite join_room_state by done.
  split; [|split; [|done]].
  - rewrite members_socket_join. by rewrite decide_True.
  - intros r' Hne. rewrite members_socket_join. by rewrite decide_False.
Qed.

Lemma join_room_membership_witness :
  members "r1" (join_room find_down "sockB" (Some "r1") chatty).1
    = {[ "sockB" ]} ∪ members "r1" chatty ∧
  (∀ r', r' ≠ "r1" →
         members r' (join_room find_down "sockB" (Some "r1") chatty).1
           = members r' chatty) ∧
  sockets (join_room find_down "sockB" (Some "r1") chatty).1
    = sockets chatty ∧
  db (join_room find_down "sockB" (Some "r1") chatty).1 = db chatty.
Proof.
  apply (join_room_membership find_down "sockB" "r1" chatty). discriminate.
Defined.

(** X5. [leave_room] takes the socket out of the room, also when it was not in
    it (then no membership changes), keeps the other members of the room and
    every other room, leaves the store alone and sends nothing. *)
Theorem leave_room_membership (sid r : string) (s : Server) :
  let s' := (leave_room sid r s).1 in
  (sid ∉ members r s') ∧
  (∀ sid', sid' ≠ sid → (sid' ∈ members r s') ↔ (sid' ∈ members r s)) ∧
  (sid ∉ members r s → members r s' = members r s) ∧
  (∀ r', r' ≠ r → members r' s' = members r' s) ∧
  db s' = db s ∧
  (∀ eff, eff ∈ (leave_room sid r s).2 → ¬ is_emit eff).
Proof.
  simpl. rewrite members_socket_leave, decide_True by done.
  split; [set_unfold; tauto|].
  split; [intros sid' Hne; set_unfold; tauto|].
  split; [intros Hout; apply difference_disjoint_L;
          by apply disjoint_singleton_r|].
  split; [|split; [done|]].
  - intros r' Hne. rewrite members_socket_leave. by rewrite decide_False.
  - intros eff ->%list_elem_of_singleton. by intros [].
Qed.

(** X6. Joining a room and leaving it again puts every room back as it was, for
    a socket that was not in the room. *)
Theorem join_then_leave_room (e : Env) (sid r : string) (s : Server) :
  r ≠ "" → sid ∉ members r s →
  ∀ r', members r' (leave_room sid r (join_room e sid (Some r) s).1).1
        = members r' s.
Proof.
  intros Hr Hout r'. rewrite join_room_state by done. simpl.
  rewrite members_socket_leave. destruct (decide (r = r')) as [<-|Hne].
  - rewrite members_socket_join, decide_True by done.
    rewrite difference_union_distr_l_L, difference_diag_L, (left_id_L ∅ _).
    apply difference_disjoint_L. by apply disjoint_singleton_r.
  - rewrite members_socket_join. by rewrite decide_False.
Qed.

Lemma join_then_leave_room_witness :
  members "r1"
    (leave_room "sockB" "r1" (join_room up "sockB" (Some "r1") chatty).1).1
    = members "r1" chatty ∧
  members "r2"
    (leave_room "sockB" "r1" (join_room up "sockB" (Some "r1") chatty).1).1
    = members "r2" chatty.
Proof.
  assert (Hr : "r1" ≠ "") by discriminate.
  assert (Hout : "sockB" ∉ members "r1" chatty).
  { unfold members, chatty. simpl. rewrite lookup_singleton_eq. simpl.
    by apply not_elem_of_singleton. }
  split; apply (join_then_leave_room up "sockB" "r1" chatty Hr Hout).
Defined.

(** ** Chat messages over time *)

(** What a [chat_message] run can be: dropped, failed, or saved and
    broadcast. *)
Lemma chat_message_cases (e : Env) (msg : option ChatPayload.t) (s : Server) :
  chat_message e msg s = (s, []) ∨
  chat_message e msg s = (s, [console_error error_saving_message]) ∨
  ∃ m r, msg = Some m ∧ ChatPayload.room m = Some r ∧ r ≠ "" ∧
         chat_message e msg s =
           (mkServer (mkDb (games (db s))
                           (messages (db s) ++ [new_Message e r m]))
                     (sockets s) (rooms s),
            [io_to_emit r "chat_message" (PMessage (new_Message e r m))]).
Proof.
  destruct msg as [m|]; [|by left]. unfold chat_message.
  destruct (room_given (ChatPayload.room m)) as [r|] eqn:Hroom; [|by left].
  apply room_given_Some in Hroom as [Hroom Hr].
  unfold Message_insert. destruct (save_ok e); [|by right; left].
  destruct (bool_decide _); [by right; left|].
  right; right. by exists m, r.
Qed.



Lemma socket_on_frame (e : Env) (sid : string) (ev : SocketEvent)
    (s : Server) :
  games (db (socket_on e sid ev s).1) = games (db s) ∧
  sockets (socket_on e sid ev s).1 = sockets s ∧
  messages (db s) `prefix_of` messages (db (socket_on e sid ev s).1) ∧
  (rooms_named (db s) → rooms_named (db (socket_on e sid ev s).1)).
Proof.
  destruct ev as [room|r|msg]; simpl.
  - unfold join_room. destruct (room_given room) as [r|]; [|done].
    by destruct (Message_find_room _ _ _).
  - done.
  - destruct (chat_message_cases e msg s)
      as [->|[->|(m & r & -> & Hroom & Hr & ->)]]; [done|done|].
    simpl. split; [done|]. split; [done|].
    split; [by apply prefix_app_r|].
    intros Hnamed m' [Hin|Hin]%elem_of_app; [by apply Hnamed|].
    by apply list_elem_of_singleton in Hin as ->.
Qed.

(** X8. Whatever sequence of [join_room], [leave_room] and [chat_message]
    events the sockets send: the games collection is never touched, no
    socket is connected or disconnected, persisted messages are never
    removed or rewritten (the collection only grows at its end), and no
    message without a room name is ever persisted. *)
Theorem relay_run_keeps (evs : list (Env * string * SocketEvent)) :
  ∀ s,
    games (db (relay_run evs s).1) = games (db s) ∧
    sockets (relay_run evs s).1 = sockets s ∧
    messages (db s) `prefix_of` messages (db (relay_run evs s).1) ∧
    (rooms_named (db s) → rooms_named (db (relay_run evs s).1)).
Proof.
  induction evs as [|[[e sid] ev] evs IH]; intros s; simpl; [done|].
  destruct (socket_on_frame e sid ev s) as (Hg & Hs & Hm & Hn).
  destruct (socket_on e sid ev s) as [s1 effs1]. simpl in *.
  destruct (IH s1) as (Hg' & Hs' & Hm' & Hn').
  destruct (relay_run evs s1) as [s2 effs2]. simpl in *.
  split; [congruence|]. split; [congruence|].
  split; [by etrans|]. auto.
Qed.


(** ** Joins in sequence and in a race *)

Lemma join_game_up (e : Env) (id k : string) (d : Db) (g : Game.t) :
  store_up e → well_keyed d →
  cast_ObjectId id = Some k → games d !! k = Some g →
  join_game e id d =
    if JS.geb (Game.players g) (Game.maxPlayers g)
    then (d, res_status_json 400 "Game is full", [])
    else
      let g' := Game.with_players (JS.add1 (Game.players g)) g in
      (mkDb (<[k := g']> (games d)) (messages d),
       res_json (json_game g'), [io_emit "update_game" (PGame g')]).
Proof.
  intros [Hfind Hsave] Hkey Hcast Hg. unfold join_game.
  rewrite (join_load_found e id k d g Hfind Hcast Hg).
  destruct (JS.geb (Game.players g) (Game.maxPlayers g)); [done|].
  unfold join_save, Game_save_players. rewrite Hsave. simpl.
  rewrite (Hkey k g Hg), Hg. by destruct g.
Qed.

Lemma with_players_same (g : Game.t) :
  Game.with_players (Game.players g) g = g.
Proof. by destruct g. Qed.

Lemma with_players_twice (n m : JS.double) (g : Game.t) :
  Game.with_players n (Game.with_players m g) = Game.with_players n g.
Proof. done. Qed.

Lemma with_players_eq (n m : JS.double) (g : Game.t) :
  n = m → Game.with_players n g = Game.with_players m g.
Proof. by intros ->. Qed.

(** X11. Join requests for a game with whole counts (players from -2^53,
    maxPlayers up to 2^53) handled one after the other, with the store
    answering: exactly as many succeed as there were free places (none if
    there were none, all of them if fewer arrive), and the stored count has
    risen by that number. *)
Theorem join_all_fills (es : list Env) (id k : string) :
  ∀ (d : Db) (g : Game.t) (p m : Z),
    Forall store_up es → well_keyed d →
    cast_ObjectId id = Some k → games d !! k = Some g →
    Game.players g = JS.int p → Game.maxPlayers g = JS.int m →
    - 2 ^ 53 <= p → m <= 2 ^ 53 →
    let joined :=
      Z.of_nat (length (filter (λ r, status r = 200) (join_all es id d).2)) in
    joined = Z.min (Z.of_nat (length es)) (Z.max 0 (m - p)) ∧
    games (join_all es id d).1 !! k
      = Some (Game.with_players (JS.int (p + joined)) g).
Proof.
  induction es as [|e es IH];
    intros d g p m Hup Hkey Hcast Hg Hp Hm Hlow Hhigh; cbn [join_all].
  - cbn. split; [lia|]. by rewrite Z.add_0_r, <- Hp, with_players_same.
  - apply Forall_cons in Hup as [He Hup].
    rewrite (join_game_up e id k d g He Hkey Hcast Hg).
    destruct (JS.geb (Game.players g) (Game.maxPlayers g)) eqn:Hfull.
    + apply geb_le in Hfull. rewrite Hp, Hm in Hfull.
      apply (proj1 (le_int _ _)) in Hfull.
      specialize (IH d g p m Hup Hkey Hcast Hg Hp Hm Hlow Hhigh).
      cbv zeta in IH. cbn iota beta.
      destruct (join_all es id d) as [d2 rs]. cbn [fst snd] in *.
      rewrite filter_cons_False by done.
      destruct IH as [Hn Hd2]. split; [|done].
      rewrite Hn. cbn [length]. lia.
    + apply geb_lt in Hfull. rewrite Hp, Hm in Hfull.
      apply (proj1 (lt_int _ _)) in Hfull.
      set (g' := Game.with_players (JS.add1 (Game.players g)) g).
      assert (Hkey' : well_keyed
                (mkDb (<[k := g']> (games d)) (messages d))).
      { apply well_keyed_update; [done|]. subst g'. simpl. by apply Hkey. }
      assert (Hp' : Game.players g' = JS.int (p + 1)).
      { subst g'. simpl. rewrite Hp. apply add1_int. lia. }
      assert (Hm' : Game.maxPlayers g' = JS.int m) by done.
      assert (Hlow' : - 2 ^ 53 <= p + 1) by lia.
      specialize (IH _ g' (p + 1) m Hup Hkey' Hcast (lookup_insert_eq _ _ _)
                    Hp' Hm' Hlow' Hhigh).
      cbv zeta in IH. cbv zeta. cbn iota beta.
      destruct (join_all es id _) as [d2 rs]. cbn [fst snd] in *.
      rewrite filter_cons_True by done. cbn [length].
      destruct IH as [Hn Hd2]. split; [lia|].
      rewrite Hd2. subst g'. rewrite with_players_twice. f_equal.
      apply with_players_eq. f_equal. lia.
Qed.

Lemma join_all_fills_witness :
  Z.of_nat (length (filter (λ r, status r = 200)
                      (join_all [up; up; up] g1 lobby).2))
    = Z.min (Z.of_nat (length [up; up; up])) (Z.max 0 (6 - 5)) ∧
  games (join_all [up; up; up] g1 lobby).1 !! g1
    = Some (Game.with_players
              (JS.int (5 +
                 Z.of_nat (length (filter (λ r, status r = 200)
                                     (join_all [up; up; up] g1 lobby).2))))
              game5).
Proof.
  apply (join_all_fills [up; up; up] g1 g1 lobby game5 5 6).
  - repeat (apply Forall_cons_2; [split; reflexivity|]). by apply Forall_nil.
  - apply lobby_well_keyed.
  - reflexivity.
  - apply lookup_singleton_eq.
  - reflexivity.
  - reflexivity.
  - lia.
  - lia.
Defined.

Lemma join_all_bounded_witness :
  Z.of_nat (length (filter (λ r, status r = 200)
                      (join_all [up; save_down; up] g1 lobby).2))
    <= Z.max 0 (6 - 5).
Proof.
  apply (join_all_bounded [up; save_down; up] g1 g1 lobby game5 5 6).
  - apply lobby_well_keyed.
  - reflexivity.
  - apply lookup_singleton_eq.
  - reflexivity.
  - reflexivity.
  - lia.
  - lia.
Defined.

(** X12. A join request changes at most the [players] path of the game its
    id casts to, and only to the double [players + 1] (one more for a whole
    count from -2^53 to 2^53 - 1): every other game, every other path of
    that game and all messages are as before; and unless it answers 200 it
    changes nothing. *)
Theorem join_game_touches_players_only (e : Env) (id : string) (d : Db) :
  well_keyed d →
  let d' := (join_game e id d).1.1 in
  messages d' = messages d ∧
  (∀ k, cast_ObjectId id ≠ Some k → games d' !! k = games d !! k) ∧
  (∀ k, cast_ObjectId id = Some k → games d !! k = None → d' = d) ∧
  (∀ k g, cast_ObjectId id = Some k → games d !! k = Some g →
        ∃ g', games d' !! k = Some g' ∧
              Game.with_players (Game.players g) g' = g ∧
              (Game.players g' = Game.players g ∨
               Game.players g' = JS.add1 (Game.players g)) ∧
              ∀ p, Game.players g = JS.int p → - 2 ^ 53 <= p < 2 ^ 53 →
                   Game.players g' = JS.int p ∨
                   Game.players g' = JS.int (p + 1)) ∧
  (status (join_game e id d).1.2 ≠ 200 → d' = d).
Proof.
  intros Hkey d'. subst d'.
  destruct (cast_ObjectId id) as [k|] eqn:Hcast.
  2:{ rewrite (join_game_uncastable e id d Hcast). by repeat split. }
  destruct (games d !! k) as [g|] eqn:Hg.
  - destruct (join_game_step e id k d g Hkey Hcast Hg)
      as [(Hok & Hroom & ->)|[Hko ->]].
    + simpl. split; [done|].
      split; [intros k' Hne; rewrite lookup_insert_ne; [done|congruence]|].
      split; [intros k' [= <-]; congruence|]. split; [|done].
      intros k' g0 [= <-] Hg0.
      assert (g0 = g) as -> by congruence.
      eexists. rewrite lookup_insert_eq.
      split; [done|]. split; [by destruct g|]. split; [by right|].
      intros p Hp Hsafe. right. simpl. rewrite Hp. by apply add1_int.
    + split; [done|]. split; [done|]. split; [done|]. split; [|done].
      intros k' g0 [= <-] Hg0.
      assert (g0 = g) as -> by congruence. exists g.
      split; [done|]. split; [apply with_players_same|].
      split; [by left|]. intros p Hp _. by left.
  - assert (Hrun : (join_game e id d).1.1 = d).
    { unfold join_game, join_load, Game_findById.
      destruct (find_ok e); [|done]. by rewrite Hcast, Hg. }
    rewrite Hrun. split; [done|]. split; [done|]. split; [done|].
    split; [|done]. intros k' g0 [= <-] Hg0. congruence.
Qed.

Lemma join_game_touches_players_only_witness :
  messages (join_game up g1 lobby).1.1 = messages lobby ∧
  (∀ k, cast_ObjectId g1 ≠ Some k →
        games (join_game up g1 lobby).1.1 !! k = games lobby !! k).
Proof.
  destruct (join_game_touches_players_only up g1 lobby lobby_well_keyed)
    as (Hmsgs & Hothers & _).
  by split.
Defined.

Lemma turn_arrive (StringToNumber : string → JS.jsnum) (d : Db)
    (fl : gmap nat Pending) (rs : list (nat * Response)) (em : list Effect)
    (rid : nat) (id : string) :
  fl !! rid = None →
  turn StringToNumber (mkSys d fl rs em) (arrive_join rid id)
    = mkSys d (<[rid := await_find id]> fl) rs em.
Proof. intros Hrid. simpl. by rewrite Hrid. Qed.

Lemma turn_load_saving (StringToNumber : string → JS.jsnum) (d : Db)
    (fl : gmap nat Pending) (rs : list (nat * Response)) (em : list Effect)
    (rid : nat) (e : Env) (id : string) (doc : Game.t) :
  fl !! rid = Some (await_find id) →
  join_load e id d = saving doc →
  turn StringToNumber (mkSys d fl rs em) (resume rid e)
    = mkSys d (<[rid := await_save doc]> fl) rs em.
Proof. intros Hrid Hload. simpl. by rewrite Hrid, Hload. Qed.

Lemma turn_save (StringToNumber : string → JS.jsnum) (d : Db)
    (fl : gmap nat Pending) (rs : list (nat * Response)) (em : list Effect)
    (rid : nat) (e : Env) (doc : Game.t) (d' : Db) (r : Response)
    (effs : list Effect) :
  join_save e doc d = (d', r, effs) →
  fl !! rid = Some (await_save doc) →
  turn StringToNumber (mkSys d fl rs em) (resume rid e)
    = mkSys d' (delete rid fl) (rs ++ [(rid, r)]) (em ++ effs).
Proof. intros Hsave Hrid. simpl. by rewrite Hrid, Hsave. Qed.

(** X13. Two join requests for the same game whose lookups are both
    answered before either save: whenever the game has a free place, both
    requests are answered with the game at the double [players + 1], both
    are announced, and the stored count has been incremented once only. *)
Theorem join_lost_update (StringToNumber : string → JS.jsnum)
    (rid1 rid2 : nat) (e1 e2 e3 e4 : Env) (id k : string) (d : Db)
    (g : Game.t) :
  rid1 ≠ rid2 →
  find_ok e1 = true → find_ok e2 = true →
  save_ok e3 = true → save_ok e4 = true →
  well_keyed d → cast_ObjectId id = Some k → games d !! k = Some g →
  JS.lt (Game.players g) (Game.maxPlayers g) →
  let y := run StringToNumber
               [arrive_join rid1 id; arrive_join rid2 id;
                resume rid1 e1; resume rid2 e2;
                resume rid1 e3; resume rid2 e4] (boot d) in
  let g' := Game.with_players (JS.add1 (Game.players g)) g in
  replies y = [(rid1, res_json (json_game g'));
               (rid2, res_json (json_game g'))] ∧
  emitted y = [io_emit "update_game" (PGame g');
               io_emit "update_game" (PGame g')] ∧
  games (store y) !! k = Some g'.
Proof.
  intros Hne Hf1 Hf2 Hs3 Hs4 Hkey Hcast Hg Hroom y g'. subst y.
  assert (Hfull : JS.geb (Game.players g) (Game.maxPlayers g) = false)
    by (by apply geb_lt).
  assert (Hid : Game._id g' = k) by (subst g'; simpl; by apply Hkey).
  assert (Hload : ∀ e, find_ok e = true → join_load e id d = saving g').
  { intros e He. by rewrite (join_load_found e id k d g He Hcast Hg), Hfull. }
  set (d' := mkDb (<[k := g']> (games d)) (messages d)).
  assert (Hsave1 : join_save e3 g' d =
            (d', res_json (json_game g'),
             [io_emit "update_game" (PGame g')])).
  { unfold join_save, Game_save_players. by rewrite Hs3, Hid, Hg. }
  assert (Hsave2 : join_save e4 g' d' =
            (d', res_json (json_game g'),
             [io_emit "update_game" (PGame g')])).
  { unfold join_save, Game_save_players. rewrite Hs4, Hid. subst d'.
    cbn [games messages]. rewrite lookup_insert_eq.
    by rewrite insert_insert_eq. }
  unfold run, boot. cbn [fold_left].
  rewrite turn_arrive by apply lookup_empty.
  rewrite turn_arrive by (by rewrite lookup_insert_ne, lookup_empty).
  rewrite (turn_load_saving _ _ _ _ _ rid1 e1 id g');
    [|by rewrite lookup_insert_ne, lookup_insert_eq|by apply Hload].
  rewrite (turn_load_saving _ _ _ _ _ rid2 e2 id g');
    [|by rewrite lookup_insert_ne, lookup_insert_eq|by apply Hload].
  rewrite (turn_save _ _ _ _ _ rid1 e3 g' _ _ _ Hsave1);
    [|by rewrite lookup_insert_ne, lookup_insert_eq].
  rewrite (turn_save _ _ _ _ _ rid2 e4 g' _ _ _ Hsave2);
    [|by rewrite lookup_delete_ne, lookup_insert_eq].
  cbn [replies emitted store games app].
  split; [done|]. split; [done|]. apply lookup_insert_eq.
Qed.

Lemma join_lost_update_witness :
  let y := run JS.digits_to_number race (boot lobby) in
  let g' := Game.with_players (JS.add1 (Game.players game5)) game5 in
  replies y = [(1%nat, res_json (json_game g'));
               (2%nat, res_json (json_game g'))] ∧
  emitted y = [io_emit "update_game" (PGame g');
               io_emit "update_game" (PGame g')] ∧
  games (store y) !! g1 = Some g'.
Proof.
  apply (join_lost_update JS.digits_to_number 1 2 up up up up g1 g1 lobby
           game5); try reflexivity.
  - discriminate.
  - apply lobby_well_keyed.
Defined.

(** ** Listings *)

Section NewestFirst.
Context {A : Type} (date : A → Z).

Lemma insert_newest_perm (x : A) (l : list A) :
  insert_newest date x l ≡ₚ x :: l.
Proof.
  induction l as [|h t IH]; simpl; [done|].
  destruct (date h <=? date x); [done|].
  rewrite IH. apply Permutation_swap.
Qed.

Lemma newest_first_perm (l : list A) : newest_first date l ≡ₚ l.
Proof.
  induction l as [|x t IH]; simpl; [done|].
  by rewrite insert_newest_perm, IH.
Qed.

Lemma insert_newest_sorted (x : A) (l : list A) :
  Sorted (newer_first date) l →
  Sorted (newer_first date) (insert_newest date x l).
Proof.
  induction 1 as [|h t Hsorted IH Hhd]; simpl.
  - by repeat constructor.
  - destruct (date h <=? date x) eqn:Hle.
    + apply Z.leb_le in Hle. by repeat constructor.
    + apply Z.leb_gt in Hle. constructor; [done|].
      destruct Hhd as [|h' t' Hh']; simpl.
      * constructor. unfold newer_first. lia.
      * destruct (date h' <=? date x);
          constructor; unfold newer_first in *; lia.
Qed.

Lemma newest_first_sorted (l : list A) :
  Sorted (newer_first date) (newest_first date l).
Proof.
  induction l as [|x t IH]; simpl; [constructor|].
  by apply insert_newest_sorted.
Qed.

(** A document dated after all the others, added at the end of the
    collection, comes first and leaves the rest of the listing as it was. *)
Lemma newest_first_latest (l : list A) (x : A) :
  (∀ y, y ∈ l → date y < date x) →
  newest_first date (l ++ [x]) = x :: newest_first date l.
Proof.
  induction l as [|h t IH]; intros Hlate; simpl; [done|].
  rewrite IH by (intros y Hy; apply Hlate; by right). simpl.
  replace (date x <=? date h) with false; [done|].
  symmetry. apply Z.leb_gt. apply Hlate. by left.
Qed.
End NewestFirst.

(** X14. [GET /api/games], when the query resolves, answers with every stored
    game exactly once, newest first; when it is rejected the answer is the
    500 message. *)
Theorem get_games_lists_store (e : Env) (d : Db) :
  (find_ok e = true →
   ∃ gs, get_games e d = reply_json gs ∧
         (∀ g, g ∈ gs ↔ ∃ id, games d !! id = Some g) ∧
         length gs = size (games d) ∧
         Sorted (newer_first Game.createdAt) gs) ∧
  (find_ok e = false →
   get_games e d = reply_error 500 "Error fetching games").
Proof.
  unfold get_games. split; intros ->; [|done].
  eexists. split; [done|]. split; [|split].
  - intros g. rewrite newest_first_perm, list_elem_of_fmap. split.
    + intros ([id g'] & -> & Hin%elem_of_map_to_list). by exists id.
    + intros [id Hid]. exists (id, g). split; [done|].
      by apply elem_of_map_to_list.
  - by rewrite newest_first_perm, length_fmap, length_map_to_list.
  - apply newest_first_sorted.
Qed.

Lemma get_games_elem (e : Env) (d : Db) (g : Game.t) :
  find_ok e = true →
  ∃ gs, get_games e d = reply_json gs ∧
        (g ∈ gs ↔ ∃ id, games d !! id = Some g).
Proof.
  intros Hfind. unfold get_games. rewrite Hfind. eexists. split; [done|].
  rewrite newest_first_perm, list_elem_of_fmap. split.
  - intros ([id g'] & -> & Hin%elem_of_map_to_list). by exists id.
  - intros [id Hid]. exists (id, g). split; [done|].
    by apply elem_of_map_to_list.
Qed.

(** X15. After a join request has succeeded on a game with a whole count
    from -2^53, the listing of games shows the game with the count raised
    by one and no longer shows it with the old one. *)
Theorem joined_game_is_listed (e e' : Env) (id k : string) (d : Db)
    (g : Game.t) (p : Z) :
  store_up e → well_keyed d →
  cast_ObjectId id = Some k → games d !! k = Some g →
  Game.players g = JS.int p → - 2 ^ 53 <= p < 2 ^ 53 →
  JS.lt (Game.players g) (Game.maxPlayers g) →
  find_ok e' = true →
  ∃ gs, get_games e' (join_game e id d).1.1 = reply_json gs ∧
        Game.with_players (JS.int (p + 1)) g ∈ gs ∧
        g ∉ gs.
Proof.
  intros Hup Hkey Hcast Hg Hp Hsafe Hroom Hfind.
  rewrite (join_game_up e id k d g Hup Hkey Hcast Hg).
  rewrite (proj2 (geb_lt _ _) Hroom). cbn [fst].
  rewrite Hp, add1_int by done.
  set (g' := Game.with_players (JS.int (p + 1)) g).
  set (d' := mkDb (<[k := g']> (games d)) (messages d)).
  assert (Hkey' : well_keyed d').
  { apply well_keyed_update; [done|]. subst g'. simpl. by apply Hkey. }
  destruct (get_games_elem e' d' g' Hfind) as (gs & Hgs & Hin).
  exists gs. split; [done|]. split.
  - apply Hin. exists k. subst d'. simpl. apply lookup_insert_eq.
  - intros Hold.
    destruct (get_games_elem e' d' g Hfind) as (gs' & Hgs' & Hin').
    rewrite Hgs in Hgs'. injection Hgs' as <-.
    apply Hin' in Hold as [k' Hk].
    assert (k' = k) as -> by (rewrite <- (Hkey' k' g Hk); by apply Hkey).
    subst d'. simpl in Hk. rewrite lookup_insert_eq in Hk.
    injection Hk as Hk. apply (f_equal Game.players) in Hk.
    subst g'. simpl in Hk. rewrite Hp in Hk. apply int_inj in Hk. lia.
Qed.

Lemma joined_game_is_listed_witness :
  ∃ gs, get_games up (join_game up g1 lobby).1.1 = reply_json gs ∧
        Game.with_players (JS.int (5 + 1)) game5 ∈ gs ∧
        game5 ∉ gs.
Proof.
  apply (joined_game_is_listed up up g1 g1 lobby game5 5).
  - split; reflexivity.
  - apply lobby_well_keyed.
  - reflexivity.
  - apply lookup_singleton_eq.
  - reflexivity.
  - lia.
  - apply (proj2 (lt_int _ _)). lia.
  - reflexivity.
Defined.

(** ** Creating games and posts *)

Section CreatingGames.
Variable StringToNumber : string -> JS.jsnum.

(** X16. Whatever the request, creating a game keeps every stored game and all
    messages as they are and emits nothing; when the save is rejected or
    the generated id is taken, the answer is the 500 message and the store
    is the one the request found. *)
Theorem create_game_keeps_store (e : Env) (b : ReqBody.t) (d : Db) :
  let d' := (create_game StringToNumber e b d).1.1 in
  (∀ k g, games d !! k = Some g → games d' !! k = Some g) ∧
  messages d' = messages d ∧
  (create_game StringToNumber e b d).2 = [] ∧
  (save_ok e = false ∨ is_Some (games d !! oid e) →
   create_game StringToNumber e b d =
     (d, res_status_json 500 "Error creating game", [])).
Proof.
  unfold create_game, Game_insert. simpl.
  destruct (save_ok e); simpl.
  - destruct (games d !! oid e) as [g0|] eqn:Hfresh; simpl.
    + by repeat split.
    + split; [|split; [done|split; [done|]]].
      * intros k g Hk. rewrite lookup_insert_ne; [done|]. congruence.
      * intros [?|[? ?]]; discriminate.
  - by repeat split.
Qed.

Lemma or_zero_Num (z : Z) : JS.or_zero (JS.Num z) = JS.int z.
Proof.
  unfold JS.Num, JS.int, JS.or_zero. pose proof scale_pos.
  destruct (Z.eqb_spec (z * JS.scale) 0) as [Hz|]; [|done].
  by rewrite Hz.
Qed.

(** X17. A whole initial count z (of magnitude at most 2^53) in a
    create-game request is stored as it is sent, with no bound: a game
    created with six players or more is full from the start and a join of
    it is answered 400, and a game created with fewer (negative counts down
    to -2^53 included) is joined at that count plus one. *)
Theorem create_then_join (e e' : Env) (b : ReqBody.t) (d : Db) (z : Z) :
  ReqBody.players b = JS.JNumber (JS.Num z) →
  - 2 ^ 53 <= z <= 2 ^ 53 →
  save_ok e = true → games d !! oid e = None →
  cast_ObjectId (oid e) = Some (oid e) →
  well_keyed d → store_up e' →
  let d1 := (create_game StringToNumber e b d).1.1 in
  (∃ g, games d1 !! oid e = Some g ∧
        Game.players g = JS.int z ∧ Game.maxPlayers g = JS.int 6) ∧
  (6 <= z →
   join_game e' (oid e) d1 = (d1, res_status_json 400 "Game is full", [])) ∧
  (z < 6 →
   ∃ g', (join_game e' (oid e) d1).1.2 = res_json (json_game g') ∧
         games (join_game e' (oid e) d1).1.1 !! oid e = Some g' ∧
         Game.players g' = JS.int (z + 1) ∧
         Game.maxPlayers g' = JS.int 6).
Proof.
  intros Hplayers Hz Hsave Hfresh Hcast Hkey Hup d1. subst d1.
  rewrite (create_game_stores StringToNumber e b d Hsave Hfresh).
  cbn [fst].
  set (g := new_Game StringToNumber e b).
  set (d1 := mkDb (<[oid e := g]> (games d)) (messages d)).
  assert (Hpl : Game.players g = JS.int z).
  { subst g. unfold new_Game. cbn [Game.players]. rewrite Hplayers.
    apply or_zero_Num. }
  assert (Hmax : Game.maxPlayers g = JS.int 6) by done.
  assert (Hg : games d1 !! oid e = Some g) by apply lookup_insert_eq.
  assert (Hkey1 : well_keyed d1) by (by apply well_keyed_update).
  split; [by exists g|].
  rewrite (join_game_up e' (oid e) (oid e) d1 g Hup Hkey1 Hcast Hg).
  rewrite Hpl, Hmax.
  split; intros Hcmp.
  - by rewrite (proj2 (geb_le _ _) (proj2 (le_int 6 z) Hcmp)).
  - rewrite (proj2 (geb_lt _ _) (proj2 (lt_int z 6) Hcmp)).
    eexists. split; [done|]. cbn [fst games].
    rewrite lookup_insert_eq. split; [done|].
    split; [|done]. cbn [Game.players Game.with_players].
    apply add1_int. lia.
Qed.
End CreatingGames.

Lemma create_then_join_witness :
  (let d1 := (create_game JS.digits_to_number up crowded nothing).1.1 in
   join_game up (oid up) d1
     = (d1, res_status_json 400 "Game is full", [])) ∧
  (let d1 := (create_game JS.digits_to_number up short_handed nothing).1.1 in
   ∃ g', (join_game up (oid up) d1).1.2 = res_json (json_game g') ∧
         games (join_game up (oid up) d1).1.1 !! oid up = Some g' ∧
         Game.players g' = JS.int (-2 + 1) ∧
         Game.maxPlayers g' = JS.int 6).
Proof.
  assert (Hup : store_up up) by (split; reflexivity).
  assert (H10 : - 2 ^ 53 <= 10 <= 2 ^ 53) by lia.
  assert (H2 : - 2 ^ 53 <= -2 <= 2 ^ 53) by lia.
  split.
  - destruct (create_then_join JS.digits_to_number up up crowded nothing 10
                eq_refl H10 eq_refl (lookup_empty _) eq_refl
                nothing_well_keyed Hup) as (_ & Hfull & _).
    apply Hfull. lia.
  - destruct (create_then_join JS.digits_to_number up up short_handed
                nothing (-2) eq_refl H2 eq_refl (lookup_empty _) eq_refl
                nothing_well_keyed Hup) as (_ & _ & Hjoin).
    apply Hjoin. lia.
Defined.

Lemma Post_insert_ok (e : Env) (p : Post.t) (ps : list Post.t) :
  save_ok e = true → Post._id p ∉ Post._id <$> ps →
  Post_insert e p ps = Resolved (ps ++ [p])%list.
Proof.
  intros Hsave Hfresh. unfold Post_insert. rewrite Hsave.
  by rewrite bool_decide_eq_false_2.
Qed.

(** X18. A post whose save goes through is stored with the title, caption,
    image and author of the request, is returned, and is then part of the
    listing, which holds every stored post once, newest first; dated by the
    server clock after all stored posts, it heads the listing and the posts
    before it follow as they were listed. *)
Theorem created_post_is_listed (e e' : Env) (b : PostBody.t)
    (ps : list Post.t) :
  save_ok e = true →
  default (oid e) (PostBody._id b) ∉ Post._id <$> ps →
  find_ok e' = true →
  ∃ p listing,
    create_post e b ps = ((ps ++ [p])%list, reply_json p) ∧
    Post.title p = PostBody.title b ∧
    Post.caption p = PostBody.caption b ∧
    Post.image p = PostBody.image b ∧
    Post.author p = PostBody.author b ∧
    get_posts e' (ps ++ [p])%list = reply_json listing ∧
    listing ≡ₚ (ps ++ [p])%list ∧
    Sorted (newer_first Post.createdAt) listing ∧
    (PostBody.createdAt b = None →
     (∀ q, q ∈ ps → Post.createdAt q < now e) →
     Post.createdAt p = now e ∧
     get_posts e' ps = reply_json (tail listing) ∧
     head listing = Some p).
Proof.
  intros Hsave Hfresh Hfind.
  exists (new_Post e b), (newest_first Post.createdAt (ps ++ [new_Post e b])%list).
  unfold create_post, get_posts. rewrite Post_insert_ok by done.
  rewrite Hfind. repeat (split; [done|]).
  split; [apply newest_first_perm|].
  split; [apply newest_first_sorted|].
  intros Hdate Hlate.
  assert (Hnow : Post.createdAt (new_Post e b) = now e)
    by (unfold new_Post; simpl; by rewrite Hdate).
  rewrite newest_first_latest; [done|].
  intros q Hq. rewrite Hnow. by apply Hlate.
Qed.

Lemma created_post_is_listed_witness :
  ∃ p listing,
    create_post up announcement feed = ((feed ++ [p])%list, reply_json p) ∧
    Post.title p = Some "Training moved" ∧
    Post.caption p = Some "Now on Tuesday" ∧
    Post.image p = None ∧
    Post.author p = Post.mk_author (Some "u1") (Some "Alice") ∧
    get_posts up (feed ++ [p])%list = reply_json listing ∧
    listing ≡ₚ (feed ++ [p])%list ∧
    Sorted (newer_first Post.createdAt) listing ∧
    (PostBody.createdAt announcement = None →
     (∀ q, q ∈ feed → Post.createdAt q < now up) →
     Post.createdAt p = now up ∧
     get_posts up feed = reply_json (tail listing) ∧
     head listing = Some p).
Proof.
  apply (created_post_is_listed up up announcement feed).
  - reflexivity.
  - simpl. intros Hin.
    apply elem_of_cons in Hin as [Heq|Hin]; [discriminate|].
    apply elem_of_cons in Hin as [Heq|Hin]; [discriminate|].
    by apply elem_of_nil in Hin.
  - reflexivity.
Defined.

(** ** Delivery follows membership *)

(** X9. A chat message for room [r] is not delivered to a socket that has just
    left [r], whatever else the handler does; and it is delivered to a
    socket that has just joined [r], when its save goes through. *)
Theorem delivery_follows_membership (e e' : Env) (m : ChatPayload.t)
    (sid r : string) (s : Server) :
  ChatPayload.room m = Some r → r ≠ "" →
  (∀ eff, eff ∈ (chat_message e (Some m) (leave_room sid r s).1).2 →
          sid ∉ recipients (leave_room sid r s).1 eff) ∧
  (save_ok e = true →
   default (oid e) (ChatPayload._id m) ∉ Message._id <$> messages (db s) →
   ∃ eff, eff ∈ (chat_message e (Some m) (join_room e' sid (Some r) s).1).2 ∧
          sid ∈ recipients (join_room e' sid (Some r) s).1 eff).
Proof.
  intros Hroom Hr. split.
  - intros eff Hin.
    destruct (chat_message_cases e (Some m) (leave_room sid r s).1)
      as [Hrun|[Hrun|(m0 & r0 & [= <-] & Hroom0 & _ & Hrun)]];
      rewrite Hrun in Hin; simpl in Hin.
    + by apply elem_of_nil in Hin.
    + apply list_elem_of_singleton in Hin as ->. simpl.
      apply not_elem_of_empty.
    + apply list_elem_of_singleton in Hin as ->.
      assert (r0 = r) as -> by congruence.
      simpl. rewrite members_socket_leave, decide_True by done.
      set_unfold. tauto.
  - intros Hsave Hfresh. rewrite join_room_state by done.
    unfold chat_message.
    rewrite (proj2 (room_given_Some _ r) (conj Hroom Hr)).
    rewrite Message_insert_ok by done.
    eexists. split; [by apply list_elem_of_singleton|].
    simpl. rewrite members_socket_join, decide_True by done.
    apply elem_of_union_l. by apply elem_of_singleton.
Qed.

Lemma delivery_follows_membership_witness :
  (∀ eff, eff ∈ (chat_message up (Some hi)
                   (leave_room "sockA" "r1" chatty).1).2 →
          "sockA" ∉ recipients (leave_room "sockA" "r1" chatty).1 eff) ∧
  (save_ok up = true →
   default (oid up) (ChatPayload._id hi)
     ∉ Message._id <$> messages (db chatty) →
   ∃ eff, eff ∈ (chat_message up (Some hi)
                   (join_room up "sockA" (Some "r1") chatty).1).2 ∧
          "sockA" ∈ recipients
                      (join_room up "sockA" (Some "r1") chatty).1 eff).
Proof.
  apply (delivery_follows_membership up up hi "sockA" "r1" chatty);
    [reflexivity|discriminate].
Defined.
